(** * paho.golang: topic routing and packet-identifier correlation

    A shallow embedding of
      - [paho/message_ids.go]   (the [MIDs] packet-identifier service),
      - [paho/router.go]        ([StandardRouter], [StandardContextRouter],
                                 the topic matcher), and
      - [paho/extensions/routercontext] (the context-aware [Router]),
    together with the properties of these that the specification states.

    Conventions.  A Go [uint16] is a [Z] in the range [0, 65535]; a Go
    [string] is a [string] (a sequence of bytes); a Go [map] is a [gmap];
    a run-time panic is a [Fault] returned in the left summand of a sum. *)

From Stdlib Require Import Ascii.
From stdpp Require Import gmap strings list fin_maps.

Local Open Scope Z_scope.

(** ** Packet identifiers: [paho/message_ids.go] *)

Module MIDs.

(** [ErrNoMoreIDs]: "an error returned when there are no more available
    packet IDs". *)
Inductive error : Set := ErrNoMoreIDs.

Section Service.
(** [*CPContext]: the waiter a packet identifier is associated with.
    The service stores and returns it and never looks inside. *)
Context {CPContext : Type}.

(** [type MIDs struct { sync.Mutex; index map[uint16]*CPContext;
    lastIdUsed uint16 }].  Every method body runs under the mutex, so a
    method is one atomic state transformer. *)
Record MIDs : Type := mkMIDs {
  index : gmap Z CPContext;
  lastIdUsed : Z
}.

(** The values a [uint16] field can hold. *)
Definition uint16 (i : Z) : Prop := 0 <= i <= 65535.

Definition wf (m : MIDs) : Prop := uint16 (lastIdUsed m).

(** The service as the client creates it: an allocated empty index and
    the zero value of [lastIdUsed]. *)
Definition fresh : MIDs := {| index := ∅; lastIdUsed := 0 |}.

(** The loop of [getNextId]:
    [for i := startFrom; i < 65535; i++ { if _, ok := m.index[i]; !ok
    { return i } }; return 0].  [fuel] bounds the number of iterations
    and is chosen by [getNextId] so that the loop always leaves through
    its own condition (lemma [getNextId_loop_fuel]). *)
Fixpoint getNextId_loop (idx : gmap Z CPContext) (fuel : nat) (i : Z) : Z :=
  match fuel with
  | O => 0
  | S fuel' =>
      if decide (i < 65535) then
        match idx !! i with
        | None => i
        | Some _ => getNextId_loop idx fuel' (i + 1)
        end
      else 0
  end.

(** [func (m *MIDs) getNextId(startFrom uint16) uint16] *)
Definition getNextId (m : MIDs) (startFrom : Z) : Z :=
  let startFrom := if decide (startFrom > 65535) then 1 else startFrom in
  getNextId_loop (index m) (Z.to_nat (65535 - startFrom)) startFrom.

(** [func (m *MIDs) Request(c *CPContext) (uint16, error)].
    The result is the state after the call and the returned pair. *)
Definition Request (m : MIDs) (c : CPContext) : MIDs * (Z * option error) :=
  let m :=
    if decide (lastIdUsed m < 65535)
    then {| index := index m; lastIdUsed := lastIdUsed m + 1 |}
    else {| index := index m; lastIdUsed := 1 |} in
  let i := lastIdUsed m in
  match index m !! i with
  | None =>
      ({| index := <[i := c]> (index m); lastIdUsed := lastIdUsed m |},
       (i, None))
  | Some _ =>
      let i := getNextId m i in
      if decide (i > 0) then
        ({| index := <[i := c]> (index m); lastIdUsed := i |}, (i, None))
      else (m, (0, Some ErrNoMoreIDs))
  end.

(** The identifier [Request] tries first: the one after the last one
    issued, 1 following 65535. *)
Definition next_id (m : MIDs) : Z :=
  if decide (lastIdUsed m < 65535) then lastIdUsed m + 1 else 1.

(** [func (m *MIDs) Get(i uint16) *CPContext]; [None] is the nil
    pointer a Go map lookup yields for an absent key. *)
Definition Get (m : MIDs) (i : Z) : option CPContext := index m !! i.

(** [func (m *MIDs) Free(i uint16)] *)
Definition Free (m : MIDs) (i : Z) : MIDs :=
  {| index := delete i (index m); lastIdUsed := lastIdUsed m |}.

(** [func (m *MIDs) Clear()] *)
Definition Clear (m : MIDs) : MIDs :=
  {| index := ∅; lastIdUsed := lastIdUsed m |}.

(** An identifier is in use when the index has an entry for it. *)
Definition in_use (m : MIDs) (i : Z) : Prop := is_Some (index m !! i).

(** A caller issuing [Request] once per waiter of [cs], in order, with
    nothing in between.  The results of the calls are collected. *)
Fixpoint RequestAll (m : MIDs) (cs : list CPContext)
  : MIDs * list (Z * option error) :=
  match cs with
  | [] => (m, [])
  | c :: cs' =>
      let '(m1, r) := Request m c in
      let '(m2, rs) := RequestAll m1 cs' in
      (m2, r :: rs)
  end.

(** The states the service can be in: those its four operations lead to
    from [fresh]. *)
Inductive reachable : MIDs -> Prop :=
| reachable_fresh : reachable fresh
| reachable_Request m c : reachable m -> reachable (Request m c).1
| reachable_Free m i : uint16 i -> reachable m -> reachable (Free m i)
| reachable_Clear m : reachable m -> reachable (Clear m).

End Service.

Arguments MIDs : clear implicits.
End MIDs.

(** ** What the routers use of the Go language and library *)

Module Go.

(** The two run-time panics the routing code can raise. *)
Inductive Fault : Set :=
| NilPointerDereference
| SliceBoundsOutOfRange.

#[global] Instance Fault_eq_dec : EqDecision Fault.
Proof. solve_decision. Defined.

(** Code that may panic: [inl f] is the panic, [inr x] the value.  The
    instances give it stdpp's [x ← e; k] notation. *)
#[global] Instance fault_ret : MRet (sum Fault) := λ A x, inr x.
#[global] Instance fault_bind : MBind (sum Fault) :=
  λ A B f m, match m with inl e => inl e | inr x => f x end.

(** [*p] for a pointer [p]; [None] is [nil]. *)
Definition deref {A : Type} (p : option A) : Fault + A :=
  match p with
  | Some x => inr x
  | None => inl NilPointerDereference
  end.

(** [strings.Split(s, sep)] for a separator of one byte: the pieces of
    [s] between the occurrences of [sep]; always at least one piece. *)
Fixpoint Split (s : string) (sep : Ascii.ascii) : list string :=
  match s with
  | EmptyString => [EmptyString]
  | String c s' =>
      if Ascii.eqb c sep then EmptyString :: Split s' sep
      else match Split s' sep with
           | [] => [String c EmptyString]
           | piece :: pieces => String c piece :: pieces
           end
  end.

(** [strings.Join(pieces, sep)] for a separator of one byte. *)
Fixpoint Join (pieces : list string) (sep : Ascii.ascii) : string :=
  match pieces with
  | [] => EmptyString
  | [piece] => piece
  | piece :: pieces' => piece +:+ String sep (Join pieces' sep)
  end.

(** [strings.Count(s, sep)] for a separator of one byte. *)
Fixpoint Count (s : string) (sep : Ascii.ascii) : nat :=
  match s with
  | EmptyString => 0
  | String c s' => (if Ascii.eqb c sep then 1 else 0) + Count s' sep
  end.

(** [strings.HasPrefix(s, prefix)] *)
Definition HasPrefix (s prefix : string) : bool := String.prefix prefix s.

(** The slice expression [l[n:]]: it panics when [n] exceeds [len(l)]. *)
Definition slice_from {A : Type} (n : nat) (l : list A) : Fault + list A :=
  if decide (n ≤ length l)%nat then inr (drop n l)
  else inl SliceBoundsOutOfRange.

(** [context.Context], as far as the routers build one. *)
Inductive Context : Set :=
| Background
| WithCancel (parent : Context).

End Go.

(** ** The topic matcher: [match], [matchDeep], [routeSplit], [topicSplit]

    (the same text in [paho/router.go] and in
    [paho/extensions/routercontext]) *)

Module Matcher.
Import Go.

(** [func matchDeep(route []string, topic []string) bool] *)
Fixpoint matchDeep (route topic : list string) : bool :=
  match route with
  | [] => bool_decide (length topic = 0%nat)
  | route0 :: route' =>
      match topic with
      | [] => String.eqb route0 "#"
      | topic0 :: topic' =>
          if String.eqb route0 "#" then true
          else if String.eqb route0 "+" || String.eqb route0 topic0
               then matchDeep route' topic'
               else false
      end
  end.

(** [func routeSplit(route string) []string] *)
Definition routeSplit (route : string) : Fault + list string :=
  if decide (String.length route = 0%nat) then inr []
  else if HasPrefix route "$share"
       then slice_from 2 (Split route "/"%char)
       else inr (Split route "/"%char).

(** [func topicSplit(topic string) []string] *)
Definition topicSplit (topic : string) : list string :=
  if decide (String.length topic = 0%nat) then []
  else Split topic "/"%char.

(** [func routeIncludesTopic(route, topic string) bool] *)
Definition routeIncludesTopic (route topic : string) : Fault + bool :=
  levels ← routeSplit route;
  mret (matchDeep levels (topicSplit topic)).

(** [func match(route, topic string) bool]; [||] evaluates its right
    operand only when the left one is false. *)
Definition match_ (route topic : string) : Fault + bool :=
  if String.eqb route topic then inr true
  else routeIncludesTopic route topic.

(** The matching rules as the specification lists them, one constructor
    per rule that yields a match. *)
Inductive LevelsMatch : list string -> list string -> Prop :=
| LM_both_exhausted :
    LevelsMatch [] []
| LM_topic_exhausted_hash filter' :
    LevelsMatch ("#" :: filter') []
| LM_hash_absorbs filter' level topic' :
    LevelsMatch ("#" :: filter') (level :: topic')
| LM_plus filter' level topic' :
    LevelsMatch filter' topic' ->
    LevelsMatch ("+" :: filter') (level :: topic')
| LM_literal level filter' topic' :
    LevelsMatch filter' topic' ->
    LevelsMatch (level :: filter') (level :: topic').

(** The level sequence of the specification: the pieces between the
    ['/'], and no level at all for the empty string. *)
Definition levels (s : string) : list string :=
  match s with
  | EmptyString => []
  | _ => Split s "/"%char
  end.

(** The level sequence the specification gives a filter: for a shared
    subscription [$share/<group-id>/<filter>] the levels that follow the
    marker and the group id, for every other filter all its levels. *)
Definition spec_filter_levels (filter : string) : list string :=
  match levels filter with
  | marker :: _ :: filter' =>
      if decide (marker = "$share") then filter' else levels filter
  | _ => levels filter
  end.

(** A filter [routeSplit] can split, that is, one that does not make the
    slice expression of the shared-subscription branch panic. *)
Definition splits (route : string) : Prop :=
  ∃ route_levels, routeSplit route = inr route_levels.


(** A level that is neither of the two wildcards. *)
Definition literal_level (level : string) : Prop :=
  level ≠ "+" ∧ level ≠ "#".

End Matcher.

(** ** Inbound messages *)

Module packets.

(** Modelled from the spec: the declaration of [packets.Properties] is
    not among the sources.  The routers read its field [TopicAlias
    *uint16], the optional topic alias of the decoded publish, and the
    tests build it that way; [None] is the nil pointer. *)
Record Properties : Set := mkProperties {
  TopicAlias : option Z
}.

(** Modelled from the spec: the declaration of [packets.Publish] is not
    among the sources.  The fields are those of the decoded inbound publish
    of the specification; the routers read [Topic] and [Properties], a
    pointer that may be nil. *)
Record Publish : Set := mkPublish {
  Topic : string;
  Payload : string;
  QoS : Z;
  PacketID : Z;
  Retain : bool;
  Duplicate : bool;
  Properties_ : option Properties
}.

End packets.

Module paho.

(** Modelled from the spec: the declaration of [paho.Publish], the
    message a handler receives, is not among the sources; the routers read
    its [Topic], the middlewares also [PacketID] and [QoS]. *)
Record Publish : Set := mkPublish {
  Topic : string;
  Payload : string;
  QoS : Z;
  PacketID : Z;
  Retain : bool
}.

(** Modelled from the spec: [PublishFromPacketPublish] is called by every
    [Route] and its body is not among the sources.  The specification has
    the message reach the handlers unmodified, and the effective topic of
    a message without alias be its topic name: the fields are copied. *)
Definition PublishFromPacketPublish (pb : packets.Publish) : Publish :=
  {| Topic := packets.Topic pb;
     Payload := packets.Payload pb;
     QoS := packets.QoS pb;
     PacketID := packets.PacketID pb;
     Retain := packets.Retain pb |}.

End paho.

(** ** Dispatch: what the three [Route] functions share

    [StandardRouter.Route], [StandardContextRouter.Route] and
    [routercontext.Router.Route] have the same text except for the
    expression that calls a handler. *)

Module Dispatch.
Import Go Matcher.

Section Dispatch.
(** [H] is the handler type of the router.  Handlers are Go closures;
    what they do is a transformation of the world [W] outside the
    router.  [invoke h] is the router's call expression for [h]. *)
Context {H W : Type}.

(** One handler invocation, as an observer of the dispatch sees it. *)
Inductive Call : Type :=
| Registered (route : string) (h : H)
| Default (h : H).

(** The variables of a running dispatch: the world the handlers act
    on, the local [handlerCalled], and the invocations made so far
    (a history kept for the statements; the code has no such list). *)
Record State : Type := mkState {
  world : W;
  handlerCalled : bool;
  calls : list Call
}.

Definition start (w : W) : State :=
  {| world := w; handlerCalled := false; calls := [] |}.

Context (invoke : H -> W -> W).

(** [for _, handler := range handlers { <call handler>;
    handlerCalled = true }] *)
Fixpoint range_handlers (route : string) (handlers : list H) (s : State)
  : State :=
  match handlers with
  | [] => s
  | handler :: handlers' =>
      range_handlers route handlers'
        {| world := invoke handler (world s);
           handlerCalled := true;
           calls := calls s ++ [Registered route handler] |}
  end.

(** [for route, handlers := range r.subscriptions { if match(route,
    topic) { ... } }], over the entries in the order the map iteration
    produces them. *)
Fixpoint range_subscriptions (entries : list (string * list H))
    (topic : string) (s : State) : Fault + State :=
  match entries with
  | [] => inr s
  | (route, handlers) :: entries' =>
      matched ← match_ route topic;
      range_subscriptions entries' topic
        (if matched : bool then range_handlers route handlers s else s)
  end.

(** [if !handlerCalled && r.defaultHandler != nil { <call
    r.defaultHandler> }] *)
Definition call_default (defaultHandler : option H) (s : State) : State :=
  match defaultHandler with
  | Some h =>
      if negb (handlerCalled s) then
        {| world := invoke h (world s);
           handlerCalled := handlerCalled s;
           calls := calls s ++ [Default h] |}
      else s
  | None => s
  end.

(** What the scan amounts to: the calls it makes, entry by entry, and
    their combined effect on the world. *)
Fixpoint matched_calls (entries : list (string * list H)) (topic : string)
  : list Call :=
  match entries with
  | [] => []
  | (route, handlers) :: entries' =>
      match match_ route topic with
      | inr true =>
          (Registered route <$> handlers) ++ matched_calls entries' topic
      | _ => matched_calls entries' topic
      end
  end.

(** The filter under which a called handler was found. *)
Definition call_route (c : Call) : option string :=
  match c with
  | Registered route _ => Some route
  | Default _ => None
  end.

(** The calls made for the handlers of one filter. *)
Definition calls_of (route : string) (cs : list Call) : list Call :=
  filter (λ c, call_route c = Some route) cs.

Definition callee (c : Call) : H :=
  match c with
  | Registered _ h | Default h => h
  end.

Definition run_calls (cs : list Call) (w : W) : W :=
  foldl (λ w c, invoke (callee c) w) w cs.

End Dispatch.

Arguments Call : clear implicits.
Arguments State : clear implicits.

(** The topic-alias step of [Route]:
    [if pb.Properties.TopicAlias != nil { if pb.Topic != "" {
    r.aliases[alias] = pb.Topic }; if t, ok := r.aliases[alias]; ok {
    topic = t } } else { topic = m.Topic }].
    The result is the alias map after the step and the local [topic]
    ([var topic string] starts as the empty string). *)
Definition resolve_topic (aliases : gmap Z string)
    (props : packets.Properties) (pb : packets.Publish) (m : paho.Publish)
  : gmap Z string * string :=
  match packets.TopicAlias props with
  | Some alias =>
      let aliases :=
        if decide (packets.Topic pb ≠ "")
        then <[alias := packets.Topic pb]> aliases
        else aliases in
      (aliases,
       match aliases !! alias with
       | Some t => t
       | None => ""
       end)
  | None => (aliases, paho.Topic m)
  end.

(** A Go map is ranged over in an unspecified order: any arrangement of
    its entries may be the one a dispatch sees. *)
Definition iteration_of {H : Type} (subscriptions : gmap string (list H))
    (entries : list (string * list H)) : Prop :=
  entries ≡ₚ map_to_list subscriptions.

(** What a completed [Route] leaves behind: the effective [topic] it
    matched against and the final dispatch state. *)
Record Outcome (H W : Type) : Type := mkOutcome {
  topic : string;
  final : State H W
}.
Arguments topic {H W} _.
Arguments final {H W} _.

End Dispatch.

(** ** [StandardRouter] ([paho/router.go]) *)

Module StandardRouter.
Import Go Matcher Dispatch.

Section Router.
Context {W : Type}.

(** [type MessageHandler func(p *Publish)] *)
Definition MessageHandler : Type := paho.Publish -> W -> W.

(** [type StandardRouter struct]; [None] is the nil [defaultHandler].
    The debug logger only prints and is left out; the lock is modelled
    in [Locking]. *)
Record StandardRouter : Type := mkStandardRouter {
  defaultHandler : option MessageHandler;
  subscriptions : gmap string (list MessageHandler);
  aliases : gmap Z string
}.

Definition NewStandardRouter : StandardRouter :=
  {| defaultHandler := None; subscriptions := ∅; aliases := ∅ |}.

Definition RegisterHandler (r : StandardRouter) (topic : string)
    (h : MessageHandler) : StandardRouter :=
  {| defaultHandler := defaultHandler r;
     subscriptions :=
       <[topic := default [] (subscriptions r !! topic) ++ [h]]>
         (subscriptions r);
     aliases := aliases r |}.

Definition UnregisterHandler (r : StandardRouter) (topic : string)
  : StandardRouter :=
  {| defaultHandler := defaultHandler r;
     subscriptions := delete topic (subscriptions r);
     aliases := aliases r |}.

Definition DefaultHandler (r : StandardRouter) (h : option MessageHandler)
  : StandardRouter :=
  {| defaultHandler := h;
     subscriptions := subscriptions r;
     aliases := aliases r |}.

(** [func NewStandardRouterWithDefault(h MessageHandler) *StandardRouter] *)
Definition NewStandardRouterWithDefault (h : option MessageHandler)
  : StandardRouter :=
  let r := NewStandardRouter in
  DefaultHandler r h.

(** [func NewSingleHandlerRouter(h MessageHandler) *StandardRouter] *)
Definition NewSingleHandlerRouter (h : option MessageHandler)
  : StandardRouter :=
  NewStandardRouterWithDefault h.

(** [func (r *StandardRouter) Route(pb *packets.Publish)], ranging over
    the subscriptions in the order [entries]. *)
Definition Route (r : StandardRouter)
    (entries : list (string * list MessageHandler))
    (pb : packets.Publish) (w : W)
  : Fault + (StandardRouter * Outcome MessageHandler W) :=
  let m := paho.PublishFromPacketPublish pb in
  props ← deref (packets.Properties_ pb);
  let '(aliases', topic) := resolve_topic (aliases r) props pb m in
  s ← range_subscriptions (λ handler, handler m) entries topic (start w);
  let s := call_default (λ handler, handler m) (defaultHandler r) s in
  mret ({| defaultHandler := defaultHandler r;
           subscriptions := subscriptions r;
           aliases := aliases' |},
        {| topic := topic; final := s |}).

End Router.

Arguments StandardRouter : clear implicits.
Arguments MessageHandler : clear implicits.
End StandardRouter.

(** ** The context-aware routers

    [StandardContextRouter] ([paho/router.go]) and [routercontext.Router]
    ([paho/extensions/routercontext]) have the same fields and, except for
    the context they create, the same methods. *)

Module ContextRouter.
Import Go Matcher Dispatch.

Section Router.
Context {W : Type}.

(** [type Handler func(context.Context, *paho.Publish)]
    ([MessageContextHandler] in [paho/router.go]) *)
Definition Handler : Type := Context -> paho.Publish -> W -> W.

(** [type Middleware func(Handler) Handler] *)
Definition Middleware : Type := Handler -> Handler.

(** [type Router struct] *)
Record Router : Type := mkRouter {
  defaultHandler : option Handler;
  subscriptions : gmap string (list Handler);
  middlewares : list Middleware;
  aliases : gmap Z string
}.

Definition NewRouter : Router :=
  {| defaultHandler := None; subscriptions := ∅;
     middlewares := []; aliases := ∅ |}.

Definition RegisterHandler (r : Router) (topic : string) (h : Handler)
  : Router :=
  {| defaultHandler := defaultHandler r;
     subscriptions :=
       <[topic := default [] (subscriptions r !! topic) ++ [h]]>
         (subscriptions r);
     middlewares := middlewares r;
     aliases := aliases r |}.

Definition UnregisterHandler (r : Router) (topic : string) : Router :=
  {| defaultHandler := defaultHandler r;
     subscriptions := delete topic (subscriptions r);
     middlewares := middlewares r;
     aliases := aliases r |}.

(** [func (r *Router) Use(m ...Middleware)]; [StandardContextRouter.Use]
    takes exactly one. *)
Definition Use (r : Router) (m : list Middleware) : Router :=
  {| defaultHandler := defaultHandler r;
     subscriptions := subscriptions r;
     middlewares := middlewares r ++ m;
     aliases := aliases r |}.

Definition DefaultHandler (r : Router) (h : option Handler) : Router :=
  {| defaultHandler := h;
     subscriptions := subscriptions r;
     middlewares := middlewares r;
     aliases := aliases r |}.

(** The loop of [wrapHandler]:
    [for i := len(r.middlewares) - 1; i >= 0; i-- { h =
    r.middlewares[i](h) }].  [n] is [i + 1]; the index stays below the
    length, so the lookup never misses. *)
Fixpoint wrapHandler_loop (mws : list Middleware) (n : nat) (h : Handler)
  : Handler :=
  match n with
  | O => h
  | S i =>
      match mws !! i with
      | Some mw => wrapHandler_loop mws i (mw h)
      | None => h
      end
  end.

(** [func (r *Router) wrapHandler(h Handler) Handler] *)
Definition wrapHandler (r : Router) (h : Handler) : Handler :=
  if decide (length (middlewares r) = 0%nat) then h
  else wrapHandler_loop (middlewares r) (length (middlewares r)) h.

(** The composition the specification describes for middlewares
    [m1, m2, ..., mn] in registration order: [m1(m2(... mn(h) ...))]. *)
Fixpoint nested (mws : list Middleware) (h : Handler) : Handler :=
  match mws with
  | [] => h
  | m1 :: mws' => m1 (nested mws' h)
  end.

(** The body the two [Route] functions share, after [ctx] is made. *)
Definition route_in (ctx : Context) (r : Router)
    (entries : list (string * list Handler))
    (pb : packets.Publish) (w : W)
  : Fault + (Router * Outcome Handler W) :=
  let m := paho.PublishFromPacketPublish pb in
  props ← deref (packets.Properties_ pb);
  let '(aliases', topic) := resolve_topic (aliases r) props pb m in
  s ← range_subscriptions (λ handler, wrapHandler r handler ctx m)
        entries topic (start w);
  let s :=
    call_default (λ handler, wrapHandler r handler ctx m)
      (defaultHandler r) s in
  mret ({| defaultHandler := defaultHandler r;
           subscriptions := subscriptions r;
           middlewares := middlewares r;
           aliases := aliases' |},
        {| topic := topic; final := s |}).

(** [func (r *Router) Route(pb *packets.Publish)] of [routercontext]:
    [ctx := context.Background()]. *)
Definition Route := route_in Background.

(** [func (r *StandardContextRouter) Route(pb *packets.Publish)]:
    [ctx, cancel := context.WithCancel(context.Background())]. *)
Definition StandardContextRouter_Route := route_in (WithCancel Background).

End Router.

Arguments Router : clear implicits.
Arguments Handler : clear implicits.
Arguments Middleware : clear implicits.
End ContextRouter.

(** ** Locking: which lock the router methods hold at each access

    Every router embeds a [sync.RWMutex].  A method is, for the lock, the
    sequence of lock operations and accesses to the router's fields it
    performs in program order. *)

Module Locking.

(** The fields of a router, the alias map by entry. *)
Inductive Location : Set :=
| AliasEntry (alias : Z)
| Subscriptions
| DefaultHandlerField
| Middlewares.

#[global] Instance Location_eq_dec : EqDecision Location.
Proof. solve_decision. Defined.

Inductive Op : Set :=
| RLock | RUnlock | Lock | Unlock
| Load (l : Location)
| Store (l : Location).

#[global] Instance Op_eq_dec : EqDecision Op.
Proof. solve_decision. Defined.

(** [Route]: [r.RLock(); defer r.RUnlock()], then the alias step, the scan
    of the subscriptions (in which the context-aware routers read the
    middlewares) and the read of the default handler.  A publish without
    properties panics at the alias test; the deferred unlock still runs. *)
Definition Route_ops (pb : packets.Publish) : list Op :=
  [RLock] ++
  match packets.Properties_ pb with
  | None => []
  | Some props =>
      match packets.TopicAlias props with
      | Some alias =>
          (if decide (packets.Topic pb ≠ "")
           then [Store (AliasEntry alias)] else [])
          ++ [Load (AliasEntry alias)]
      | None => []
      end
      ++ [Load Subscriptions; Load Middlewares; Load DefaultHandlerField]
  end
  ++ [RUnlock].

(** [RegisterHandler]: [r.Lock(); defer r.Unlock();
    r.subscriptions[topic] = append(r.subscriptions[topic], h)]. *)
Definition RegisterHandler_ops : list Op :=
  [Lock; Load Subscriptions; Store Subscriptions; Unlock].

(** The mode in which a goroutine holds the lock. *)
Inductive Mode : Set := NotHeld | Shared | Exclusive.

Definition mode_after (held : Mode) (op : Op) : Mode :=
  match op with
  | RLock => Shared
  | Lock => Exclusive
  | RUnlock | Unlock => NotHeld
  | Load _ | Store _ => held
  end.

(** Each operation of a method with the mode the goroutine holds when it
    performs it. *)
Fixpoint held_at (held : Mode) (ops : list Op) : list (Op * Mode) :=
  match ops with
  | [] => []
  | op :: ops' => (op, held) :: held_at (mode_after held op) ops'
  end.

(** [sync.RWMutex]: the number of readers inside and whether a writer
    is. *)
Record RWMutex : Set := mkRWMutex {
  readers : nat;
  writer : bool
}.

#[global] Instance RWMutex_eq_dec : EqDecision RWMutex.
Proof. solve_decision. Defined.

Definition unlocked : RWMutex := {| readers := 0; writer := false |}.

(** Whether [op] can proceed or has to wait. *)
Definition enabled (mu : RWMutex) (op : Op) : bool :=
  match op with
  | RLock => negb (writer mu)
  | Lock => negb (writer mu) && bool_decide (readers mu = 0%nat)
  | _ => true
  end.

Definition perform (mu : RWMutex) (op : Op) : RWMutex :=
  match op with
  | RLock => {| readers := S (readers mu); writer := writer mu |}
  | RUnlock => {| readers := pred (readers mu); writer := writer mu |}
  | Lock => {| readers := readers mu; writer := true |}
  | Unlock => {| readers := readers mu; writer := false |}
  | Load _ | Store _ => mu
  end.

(** Goroutines running methods of one router: the lock and what each
    goroutine has left to do.  A step lets one goroutine whose next
    operation can proceed perform it. *)
Definition Config : Set := RWMutex * list (list Op).

Inductive step : Config -> Config -> Prop :=
| step_goroutine mu goroutines i op rest :
    goroutines !! i = Some (op :: rest) ->
    enabled mu op = true ->
    step (mu, goroutines) (perform mu op, <[i := rest]> goroutines).

(** Two accesses conflict when they touch the same location and one of
    them writes. *)
Definition conflict (a b : Op) : Prop :=
  match a, b with
  | Store l, Store l' | Store l, Load l' | Load l, Store l' => l = l'
  | _, _ => False
  end.

(** A data race: two goroutines are both about to perform conflicting
    accesses, nothing ordering one before the other. *)
Definition race (c : Config) : Prop :=
  ∃ i j a rest_i b rest_j,
    i ≠ j ∧ c.2 !! i = Some (a :: rest_i) ∧ c.2 !! j = Some (b :: rest_j) ∧
    conflict a b.

(** The configurations one step away, goroutine by goroutine. *)
Definition successors (c : Config) : list Config :=
  omap (λ i,
          match c.2 !! i with
          | Some (op :: rest) =>
              if enabled c.1 op
              then Some (perform c.1 op, <[i := rest]> c.2)
              else None
          | _ => None
          end)
       (seq 0 (length c.2)).

(** A set of configurations no step leaves. *)
Definition closed (cs : list Config) : bool :=
  forallb (λ c, forallb (λ c', bool_decide (c' ∈ cs)) (successors c)) cs.

(** The configurations at most [n] steps away from those of [cs]. *)
Fixpoint explore (n : nat) (cs : list Config) : list Config :=
  match n with
  | O => cs
  | S n' => explore n' (remove_dups (cs ++ concat (successors <$> cs)))
  end.

End Locking.

(** ** Fixtures: the concrete states and handlers the statements use *)

Module Fixtures.

(** The correlation service with only identifier 65535 outstanding, the
    last identifier issued being 65534. *)
Definition one_outstanding {CPContext : Type} (c : CPContext)
  : MIDs.MIDs CPContext :=
  {| MIDs.index := {[ 65535 := c ]}; MIDs.lastIdUsed := 65534 |}.

(** The handlers of [Test_Middleware_MultipleMiddleware]: the world is the
    slice [executionOrder], to which each closure appends its mark. *)
Definition marking_middleware (name : string)
  : ContextRouter.Middleware (list string) :=
  λ next ctx p executionOrder,
    next ctx p (executionOrder ++ [name +:+ "-before"]) ++ [name +:+ "-after"].

Definition marking_handler (name : string)
  : ContextRouter.Handler (list string) :=
  λ ctx p executionOrder, executionOrder ++ [name].

Definition marking_message_handler (name : string)
  : StandardRouter.MessageHandler (list string) :=
  λ p executionOrder, executionOrder ++ [name].

(** [&packets.Publish{Topic: topic, Properties: &packets.Properties{
    TopicAlias: alias}}] *)
Definition publish (topic : string) (alias : option Z) : packets.Publish :=
  {| packets.Topic := topic;
     packets.Payload := "";
     packets.QoS := 0;
     packets.PacketID := 0;
     packets.Retain := false;
     packets.Duplicate := false;
     packets.Properties_ := Some {| packets.TopicAlias := alias |} |}.

(** [&packets.Publish{Topic: topic}]: the [Properties] field is nil. *)
Definition publish_without_properties (topic : string) : packets.Publish :=
  {| packets.Topic := topic;
     packets.Payload := "";
     packets.QoS := 0;
     packets.PacketID := 0;
     packets.Retain := false;
     packets.Duplicate := false;
     packets.Properties_ := None |}.

(** The router of [Test_DefaultHandler], with marking handlers. *)
Definition standard_router : StandardRouter.StandardRouter (list string) :=
  StandardRouter.DefaultHandler
    (StandardRouter.RegisterHandler StandardRouter.NewStandardRouter
       "specific/topic" (marking_message_handler "handler"))
    (Some (marking_message_handler "default")).

(** The router of [Test_Middleware_MultipleMiddleware], with a default
    handler as in [Test_Middleware_WithDefaultHandler]. *)
Definition context_router : ContextRouter.Router (list string) :=
  ContextRouter.DefaultHandler
    (ContextRouter.RegisterHandler
       (ContextRouter.Use
          (ContextRouter.Use ContextRouter.NewRouter
             [marking_middleware "m1"])
          [marking_middleware "m2"])
       "test/topic" (marking_handler "handler"))
    (Some (marking_handler "default")).

(** A router with the overlapping filters [a/#] and [a/b]. *)
Definition overlapping_router : StandardRouter.StandardRouter (list string) :=
  StandardRouter.RegisterHandler
    (StandardRouter.RegisterHandler StandardRouter.NewStandardRouter
       "a/#" (marking_message_handler "a/#"))
    "a/b" (marking_message_handler "a/b").

(** A router with a handler registered under the filter [$share]. *)
Definition unsplittable_router : StandardRouter.StandardRouter (list string) :=
  StandardRouter.RegisterHandler StandardRouter.NewStandardRouter
    "$share" (marking_message_handler "handler").

(** A router whose only filter, [specific/topic], has an empty handler
    list, and with a default handler.  [RegisterHandler] never leaves such
    an entry; the dispatch loop handles it all the same. *)
Definition empty_list_router : StandardRouter.StandardRouter (list string) :=
  {| StandardRouter.defaultHandler := Some (marking_message_handler "default");
     StandardRouter.subscriptions := {[ "specific/topic" := [] ]};
     StandardRouter.aliases := ∅ |}.

(** The router of [Test_TopicAlias], the handler registered on [x/y]. *)
Definition alias_router : StandardRouter.StandardRouter (list string) :=
  StandardRouter.RegisterHandler StandardRouter.NewStandardRouter
    "x/y" (marking_message_handler "handler").

End Fixtures.

(** * Properties *)

(** ** The packet-identifier service *)

Module MIDsFacts.
Import MIDs.

Section Facts.
Context {CPContext : Type}.
Implicit Types (m : MIDs CPContext) (c : CPContext) (i : Z).
Implicit Types (idx : gmap Z CPContext).

(** What the loop of [getNextId] returns when it is given the fuel
    [getNextId] gives it: the least free identifier from [i] up to
    65534, or 0 when there is none. *)
Lemma getNextId_loop_fuel idx (fuel : nat) i :
  1 <= i -> Z.of_nat fuel = 65535 - i ->
  let r := getNextId_loop idx fuel i in
  (r = 0 ∧ ∀ j, i <= j < 65535 -> is_Some (idx !! j)) ∨
  (i <= r < 65535 ∧ idx !! r = None ∧
   ∀ j, i <= j < r -> is_Some (idx !! j)).
Proof.
  revert i. induction fuel as [|fuel IH]; intros i Hi Hfuel; simpl.
  - left. split; [done|]. intros j Hj. lia.
  - destruct (decide (i < 65535)) as [Hlt|Hge]; [|lia].
    destruct (idx !! i) as [x|] eqn:Hix.
    + destruct (IH (i + 1)) as [[Hr Hall]|(Hr & Hfree & Hall)]; [lia..| |].
      * left. split; [done|]. intros j Hj.
        destruct (decide (j = i)) as [->|]; [by rewrite Hix|apply Hall; lia].
      * right. split; [lia|]. split; [done|]. intros j Hj.
        destruct (decide (j = i)) as [->|]; [by rewrite Hix|apply Hall; lia].
    + right. split; [lia|]. split; [done|]. intros j Hj. lia.
Qed.

Lemma getNextId_spec m (startFrom : Z) :
  1 <= startFrom <= 65535 ->
  let r := getNextId m startFrom in
  (r = 0 ∧ ∀ j, startFrom <= j < 65535 -> in_use m j) ∨
  (startFrom <= r < 65535 ∧ index m !! r = None ∧
   ∀ j, startFrom <= j < r -> in_use m j).
Proof.
  intros Hs. unfold getNextId.
  destruct (decide (startFrom > 65535)) as [?|_]; [lia|].
  apply getNextId_loop_fuel; lia.
Qed.

Lemma next_id_range m : wf m -> 1 <= next_id m <= 65535.
Proof. unfold wf, uint16, next_id. case_decide; lia. Qed.

(** [Request], case by case. *)
Lemma Request_cases m c :
  wf m ->
  let n := next_id m in
  (index m !! n = None ∧
   Request m c = ({| index := <[n := c]> (index m); lastIdUsed := n |},
                  (n, None))) ∨
  (∃ i, in_use m n ∧ n <= i < 65535 ∧ index m !! i = None ∧
        (∀ j, n <= j < i -> in_use m j) ∧
   Request m c = ({| index := <[i := c]> (index m); lastIdUsed := i |},
                  (i, None))) ∨
  (in_use m n ∧ (∀ j, n <= j < 65535 -> in_use m j) ∧
   Request m c = ({| index := index m; lastIdUsed := n |},
                  (0, Some ErrNoMoreIDs))).
Proof.
  intros Hwf n. pose proof (next_id_range m Hwf) as Hn.
  unfold Request. fold (next_id m) in *.
  assert (Hm : (if decide (lastIdUsed m < 65535)
                then {| index := index m; lastIdUsed := lastIdUsed m + 1 |}
                else {| index := index m; lastIdUsed := 1 |})
               = {| index := index m; lastIdUsed := n |}).
  { unfold n, next_id. by case_decide. }
  rewrite Hm. simpl. fold n.
  destruct (index m !! n) as [x|] eqn:Hx; [|by left].
  right.
  destruct (getNextId_spec {| index := index m; lastIdUsed := n |} n Hn)
    as [[Hr Hall]|(Hr & Hfree & Hall)]; simpl in *.
  - right. rewrite Hr. split; [by unfold in_use; rewrite Hx|].
    split; [done|]. by destruct (decide (0 > 0)); [lia|].
  - left. eexists. split; [by unfold in_use; rewrite Hx|].
    split; [exact Hr|]. split; [done|]. split; [done|].
    by destruct (decide (_ > 0)); [|lia].
Qed.

(** A successful [Request] returns a nonzero identifier that was free,
    associates it with the waiter and changes nothing else. *)
Lemma Request_success m c m' i :
  wf m -> Request m c = (m', (i, None)) ->
  1 <= i <= 65535 ∧ index m !! i = None ∧
  index m' = <[i := c]> (index m) ∧ wf m'.
Proof.
  intros Hwf Hreq. pose proof (next_id_range m Hwf) as Hn.
  destruct (Request_cases m c Hwf)
    as [[Hfree E]|[(k & _ & Hk & Hfree & _ & E)|(_ & _ & E)]];
    rewrite E in Hreq; simplify_eq; simpl;
    unfold wf, uint16; simpl; repeat split; (done || lia).
Qed.

(** A failed [Request] returns 0 and leaves the index as it was. *)
Lemma Request_failure m c m' i e :
  wf m -> Request m c = (m', (i, Some e)) ->
  i = 0 ∧ e = ErrNoMoreIDs ∧ index m' = index m ∧ wf m'.
Proof.
  intros Hwf Hreq. pose proof (next_id_range m Hwf) as Hn.
  destruct (Request_cases m c Hwf)
    as [[Hfree E]|[(k & _ & Hk & Hfree & _ & E)|(_ & _ & E)]];
    rewrite E in Hreq; simplify_eq; simpl.
  unfold wf, uint16; simpl. repeat split; (done || lia).
Qed.

(** When [Request] fails: exactly when the identifier after the last one
    issued and all those above it up to 65534 are in use. *)
Lemma Request_failure_iff m c :
  wf m ->
  (Request m c).2.2 = Some ErrNoMoreIDs ↔
  ∀ j, next_id m <= j < 65535 ∨ j = next_id m -> in_use m j.
Proof.
  intros Hwf. pose proof (next_id_range m Hwf) as Hn.
  destruct (Request_cases m c Hwf)
    as [[Hfree E]|[(k & Hnext & Hk & Hfree & _ & E)|(Hnext & Hall & E)]];
    rewrite E; simpl.
  - split; [done|]. intros Hall.
    destruct (Hall (next_id m)) as [x Hx]; [by right|]. congruence.
  - split; [done|]. intros Hall.
    destruct (Hall k) as [x Hx]; [by left|]. congruence.
  - split; [|done]. intros _ j [Hj| ->]; [by apply Hall|done].
Qed.

Lemma Request_keeps_in_use m c j :
  wf m -> in_use m j -> in_use (Request m c).1 j.
Proof.
  intros Hwf Hj. unfold in_use in *.
  destruct (Request_cases m c Hwf)
    as [[Hfree E]|[(k & _ & Hk & Hfree & _ & E)|(_ & _ & E)]];
    rewrite E; simpl; [| |done].
  - rewrite lookup_insert_ne; [done|]. intros Heq.
    rewrite Heq in Hfree. rewrite Hfree in Hj. by destruct Hj.
  - rewrite lookup_insert_ne; [done|]. intros Heq.
    rewrite Heq in Hfree. rewrite Hfree in Hj. by destruct Hj.
Qed.

(** Sequential requests that all succeed: as many identifiers as
    waiters, pairwise distinct, each nonzero and free at the start. *)
Lemma RequestAll_success cs : ∀ m m' rs,
  wf m -> RequestAll m cs = (m', rs) ->
  Forall (λ r, r.2 = None) rs ->
  length rs = length cs ∧ NoDup rs.*1 ∧
  Forall (λ i, 1 <= i <= 65535 ∧ index m !! i = None) rs.*1 ∧ wf m'.
Proof.
  induction cs as [|c cs IH]; intros m m' rs Hwf Hall Hok; simpl in Hall.
  - simplify_eq. simpl.
    split; [done|]. split; [constructor|]. split; [constructor|done].
  - destruct (Request m c) as [m1 [i e]] eqn:Hreq.
    destruct (RequestAll m1 cs) as [m2 rs'] eqn:Hrest.
    simplify_eq. apply Forall_cons in Hok as [He Hok]. simpl in He. subst e.
    destruct (Request_success m c m1 i Hwf Hreq) as (Hi & Hfree & Hidx & Hwf1).
    destruct (IH m1 m' rs' Hwf1 Hrest Hok) as (Hlen & Hnd & Hfresh & Hwf').
    simpl. split; [by rewrite Hlen|]. split; [|split; [|done]].
    + constructor; [|done]. intros Hin.
      rewrite Forall_forall in Hfresh. apply Hfresh in Hin as [_ Hin].
      rewrite Hidx in Hin. by rewrite lookup_insert_eq in Hin.
    + constructor; [done|].
      eapply Forall_impl; [exact Hfresh|]. simpl. intros j [Hj Hnone].
      split; [done|]. rewrite Hidx in Hnone.
      destruct (decide (i = j)) as [->|Hne].
      * by rewrite lookup_insert_eq in Hnone.
      * by rewrite lookup_insert_ne in Hnone.
Qed.

(** C9.  Every successful [Request] returns an identifier in
    [1, 65535] that was associated with no waiter immediately before
    the call and is associated with the given waiter after it; hence
    [n] sequential successful [Request] calls with no [Free] in between
    return [n] pairwise-distinct nonzero identifiers. *)
Theorem Request_issues_fresh_nonzero_ids m :
  wf m ->
  (∀ c m' i, Request m c = (m', (i, None)) ->
     1 <= i <= 65535 ∧ ¬ in_use m i ∧ index m' !! i = Some c) ∧
  (∀ cs m' rs, RequestAll m cs = (m', rs) ->
     Forall (λ r, r.2 = None) rs ->
     length rs = length cs ∧ NoDup rs.*1 ∧
     Forall (λ i, i ≠ 0 ∧ 1 <= i <= 65535) rs.*1).
Proof.
  intros Hwf. split.
  - intros c m' i Hreq.
    destruct (Request_success m c m' i Hwf Hreq) as (Hi & Hfree & Hidx & _).
    split; [done|]. split.
    + unfold in_use. rewrite Hfree. by intros [? ?].
    + rewrite Hidx. apply lookup_insert_eq.
  - intros cs m' rs Hall Hok.
    destruct (RequestAll_success cs m m' rs Hwf Hall Hok)
      as (Hlen & Hnd & Hfresh & _).
    split; [done|]. split; [done|].
    eapply Forall_impl; [exact Hfresh|]. simpl. intros i [Hi _]. lia.
Qed.

(** Requesting an identifier and freeing it at once moves [lastIdUsed]
    one step and leaves the index as it was. *)
Lemma Request_Free_advances idx (n : Z) c :
  0 <= n <= 65535 -> idx !! next_id (mkMIDs idx n) = None ->
  let m := mkMIDs idx n in
  Free (Request m c).1 (next_id m) = mkMIDs idx (next_id m).
Proof.
  intros Hn Hfree m.
  assert (Hwf : wf m) by (unfold wf, uint16; simpl; lia).
  destruct (Request_cases m c Hwf) as [[_ E]|[(k & [x Hx] & _)|([x Hx] & _)]];
    subst m; simpl in *; [|congruence..].
  rewrite E. unfold Free. simpl. f_equal. by apply delete_insert_id.
Qed.

Lemma reachable_empty_index c (n : nat) :
  Z.of_nat n <= 65534 ->
  reachable (mkMIDs (∅ : gmap Z CPContext) (Z.of_nat n)).
Proof.
  induction n as [|n IH]; intros Hn; [apply reachable_fresh|].
  pose proof (Request_Free_advances ∅ (Z.of_nat n) c) as Hstep.
  assert (Hnext : next_id (mkMIDs (∅ : gmap Z CPContext) (Z.of_nat n))
                  = Z.of_nat (S n)).
  { unfold next_id. simpl lastIdUsed. case_decide; lia. }
  simpl in Hstep. rewrite Hnext in Hstep. rewrite <- Hstep; [|lia|done].
  apply reachable_Free; [unfold uint16; lia|].
  apply reachable_Request. apply IH. lia.
Qed.

Lemma reachable_top_outstanding c :
  reachable (mkMIDs ({[ 65535 := c ]} : gmap Z CPContext) 65535).
Proof.
  assert (Hprev : reachable (mkMIDs (∅ : gmap Z CPContext) 65534)).
  { replace 65534 with (Z.of_nat (Z.to_nat 65534)) by lia.
    apply (reachable_empty_index c). lia. }
  apply (reachable_Request _ c) in Hprev.
  destruct (Request_cases (mkMIDs (∅ : gmap Z CPContext) 65534) c)
    as [[_ E]|[(k & [x Hx] & _)|([x Hx] & _)]];
    [unfold wf, uint16; simpl; lia| |simpl in Hx..].
  - rewrite E in Hprev. simpl in Hprev.
    replace (next_id _) with 65535 in Hprev
      by (unfold next_id; simpl lastIdUsed; case_decide; lia).
    by rewrite insert_empty in Hprev.
  - by rewrite lookup_empty in Hx.
  - by rewrite lookup_empty in Hx.
Qed.

Lemma reachable_last_outstanding c (n : nat) :
  1 <= Z.of_nat n <= 65534 ->
  reachable (mkMIDs ({[ 65535 := c ]} : gmap Z CPContext) (Z.of_nat n)).
Proof.
  induction n as [|n IH]; intros Hn; [lia|].
  assert (Hprev : ∃ k, 0 <= k <= 65535 ∧
            next_id (mkMIDs ({[ 65535 := c ]} : gmap Z CPContext) k)
              = Z.of_nat (S n) ∧
            reachable (mkMIDs ({[ 65535 := c ]} : gmap Z CPContext) k)).
  { destruct n as [|n].
    - exists 65535. split; [lia|].
      split; [by unfold next_id; simpl lastIdUsed; case_decide; lia|].
      apply reachable_top_outstanding.
    - exists (Z.of_nat (S n)). split; [lia|].
      split; [unfold next_id; simpl lastIdUsed; case_decide; lia|].
      apply IH; lia. }
  destruct Hprev as (k & Hk & Hnext & Hreach).
  pose proof (Request_Free_advances {[ 65535 := c ]} k c Hk) as Hstep.
  simpl in Hstep. rewrite Hnext in Hstep. rewrite <- Hstep.
  - apply reachable_Free; [unfold uint16; lia|]. by apply reachable_Request.
  - apply lookup_singleton_ne. lia.
Qed.

End Facts.

(** C1.  The service can reach the state in which 65535 is the only
    identifier in use and 65534 the last one issued.  There [Request]
    fails with [ErrNoMoreIDs] although every identifier from 1 to 65534 is
    free: after finding 65535 taken it scans from 65535 upwards only, and
    the scan stops before 65535. *)
Theorem Request_fails_with_free_identifiers :
  let m := Fixtures.one_outstanding "waiter" in
  reachable m ∧ wf m ∧
  dom (index m) = {[ 65535 ]} ∧ ¬ in_use m 1 ∧
  Request m "other" = (mkMIDs (index m) 65535, (0, Some ErrNoMoreIDs)).
Proof.
  unfold Fixtures.one_outstanding. simpl.
  split; [|split; [|split; [|split]]].
  - replace 65534 with (Z.of_nat (Z.to_nat 65534)) by lia.
    apply (reachable_last_outstanding "waiter"). lia.
  - unfold wf, uint16. simpl. lia.
  - simpl. apply dom_singleton_L.
  - unfold in_use. simpl. rewrite lookup_singleton_ne; [|lia]. by intros [? ?].
  - reflexivity.
Qed.

(** Three requests on the fresh service return 1, 2 and 3. *)
Lemma Request_issues_fresh_nonzero_ids_witness :
  wf (@fresh nat) ∧
  (RequestAll (@fresh nat) [7; 8; 9]%nat).2.*1 = [1; 2; 3] ∧
  NoDup ((RequestAll (@fresh nat) [7; 8; 9]%nat).2.*1).
Proof.
  split; [unfold wf, uint16; simpl; lia|].
  split; [reflexivity|].
  destruct (Request_issues_fresh_nonzero_ids (@fresh nat)) as [_ Hseq].
  - unfold wf, uint16; simpl; lia.
  - destruct (Hseq [7; 8; 9]%nat
                (RequestAll (@fresh nat) [7; 8; 9]%nat).1
                (RequestAll (@fresh nat) [7; 8; 9]%nat).2)
      as (_ & Hnd & _).
    + reflexivity.
    + repeat constructor.
    + exact Hnd.
Defined.

End MIDsFacts.


(** ** The topic matcher *)

Module MatcherFacts.
Import Go Matcher.

Lemma matchDeep_LevelsMatch route : ∀ topic,
  matchDeep route topic = true ↔ LevelsMatch route topic.
Proof.
  induction route as [|route0 route' IH]; intros topic; simpl.
  - destruct topic as [|topic0 topic']; simpl.
    + split; [constructor|done].
    + split; [done|inversion 1].
  - destruct topic as [|topic0 topic'].
    + rewrite String.eqb_eq. split.
      * intros ->. constructor.
      * by inversion 1.
    + destruct (String.eqb route0 "#") eqn:Hhash.
      * apply String.eqb_eq in Hhash as ->. split; [constructor|done].
      * apply String.eqb_neq in Hhash.
        destruct (String.eqb route0 "+") eqn:Hplus; simpl.
        { apply String.eqb_eq in Hplus as ->. rewrite IH. split.
          - by constructor.
          - by inversion 1. }
        apply String.eqb_neq in Hplus.
        destruct (String.eqb route0 topic0) eqn:Hlit.
        { apply String.eqb_eq in Hlit as ->. rewrite IH. split.
          - by constructor.
          - by inversion 1. }
        apply String.eqb_neq in Hlit. split; [done|].
        by inversion 1.
Qed.

(** A level sequence matches itself: the equality test at the head of
    [match] agrees with the level-by-level comparison. *)
Lemma matchDeep_refl route : matchDeep route route = true.
Proof.
  induction route as [|route0 route' IH]; simpl; [done|].
  destruct (String.eqb route0 "#"); [done|].
  by rewrite String.eqb_refl, orb_true_r.
Qed.

Lemma length_zero_empty s : String.length s = 0%nat ↔ s = "".
Proof. destruct s; simpl; split; (done || lia). Qed.

Lemma topicSplit_levels topic : topicSplit topic = levels topic.
Proof.
  unfold topicSplit, levels. destruct topic; [done|].
  by destruct (decide _) as [Hlen|_]; [simpl in Hlen|].
Qed.

Lemma routeSplit_levels route :
  HasPrefix route "$share" = false -> routeSplit route = inr (levels route).
Proof.
  intros Hshare. unfold routeSplit, levels. rewrite Hshare.
  destruct route; [done|].
  by destruct (decide _) as [Hlen|_]; [simpl in Hlen|].
Qed.

(** Without a shared-subscription prefix, [match] is the level-by-level
    comparison of the two level sequences. *)
Lemma match_levels route topic :
  HasPrefix route "$share" = false ->
  match_ route topic = inr (matchDeep (levels route) (levels topic)).
Proof.
  intros Hshare. unfold match_, routeIncludesTopic.
  rewrite (routeSplit_levels _ Hshare), topicSplit_levels. simpl.
  destruct (String.eqb route topic) eqn:Heq; [|done].
  apply String.eqb_eq in Heq as ->. by rewrite matchDeep_refl.
Qed.

(** The only panic of the matcher is the slice expression of
    [routeSplit]. *)
Lemma routeSplit_fault route fault :
  routeSplit route = inl fault -> fault = SliceBoundsOutOfRange.
Proof.
  unfold routeSplit, slice_from. repeat case_match; congruence.
Qed.

Lemma match_fault route topic fault :
  match_ route topic = inl fault -> fault = SliceBoundsOutOfRange.
Proof.
  unfold match_, routeIncludesTopic.
  destruct (String.eqb route topic); [done|].
  destruct (routeSplit route) as [fault'|route_levels] eqn:Hsplit; [|done].
  simpl. intros [= <-]. by apply routeSplit_fault in Hsplit.
Qed.


(** The first piece of a split is a prefix of the string. *)
Lemma Split_head_prefix sep s : ∀ piece pieces,
  Split s sep = piece :: pieces -> String.prefix piece s = true.
Proof.
  induction s as [|c s IH]; intros piece pieces; simpl.
  - by intros [= <- _].
  - destruct (Ascii.eqb c sep); [by intros [= <- _]|].
    destruct (Split s sep) as [|piece' pieces'] eqn:Hsplit.
    + intros [= <- _]. simpl.
      destruct (Ascii.ascii_dec c c) as [_|Hne]; [|by destruct Hne].
      by destruct s.
    + intros [= <- _]. simpl.
      destruct (Ascii.ascii_dec c c) as [_|Hne]; [|by destruct Hne].
      by apply (IH piece' pieces').
Qed.

(** A filter whose first level is [$share] begins with the text
    [$share]; the converse fails, as for [$shared/x]. *)
Lemma levels_share_HasPrefix route route' :
  levels route = "$share" :: route' -> HasPrefix route "$share" = true.
Proof.
  unfold levels, HasPrefix. destruct route as [|c route]; [done|].
  apply Split_head_prefix.
Qed.

Lemma spec_filter_levels_no_share route :
  HasPrefix route "$share" = false -> spec_filter_levels route = levels route.
Proof.
  intros Hshare. unfold spec_filter_levels.
  destruct (levels route) as [|marker [|group route']] eqn:Hlevels; [done..|].
  destruct (decide (marker = "$share")) as [->|_]; [|done].
  apply levels_share_HasPrefix in Hlevels. congruence.
Qed.

(** [match] on every filter and topic, in terms of the level sequences. *)
Lemma match_by_cases route topic :
  match_ route topic
  = if HasPrefix route "$share"
    then if String.eqb route topic then inr true
         else route_levels ← slice_from 2 (levels route);
              mret (matchDeep route_levels (levels topic))
    else inr (matchDeep (levels route) (levels topic)).
Proof.
  destruct (HasPrefix route "$share") eqn:Hshare; [|by apply match_levels].
  unfold match_, routeIncludesTopic, routeSplit. rewrite Hshare.
  destruct (String.eqb route topic); [done|].
  destruct route as [|c route]; [done|].
  rewrite topicSplit_levels.
  by destruct (decide _) as [Hlen|_]; [simpl in Hlen|].
Qed.

(** C5, as stated, fails, at two kinds of filter.  [$shared/+/y] is not
    a shared subscription: its first level is [$shared], the level sequence
    the specification gives it is [$shared], [+], [y], and that matches the
    levels of the topic [$shared/x/y] by the rules.  The code tests whether
    the text of the filter begins with [$share], drops the first two levels
    and compares [y] with the three levels of the topic: no match.
    [$share/group/a/b] is a shared subscription, compared as [a], [b],
    which the four levels of the topic [$share/group/a/b] do not match by
    the rules; the equality test that [match] makes first accepts the
    topic. *)
Lemma share_text_prefix_drops_two_levels :
  (spec_filter_levels "$shared/+/y" = ["$shared"; "+"; "y"] ∧
   LevelsMatch (spec_filter_levels "$shared/+/y") (levels "$shared/x/y") ∧
   match_ "$shared/+/y" "$shared/x/y" = inr false) ∧
  (spec_filter_levels "$share/group/a/b" = ["a"; "b"] ∧
   ¬ LevelsMatch (spec_filter_levels "$share/group/a/b")
       (levels "$share/group/a/b") ∧
   match_ "$share/group/a/b" "$share/group/a/b" = inr true) ∧
  ¬ (∀ route topic,
       match_ route topic = inr true ↔
       LevelsMatch (spec_filter_levels route) (levels topic)).
Proof.
  assert (Hshared : LevelsMatch (spec_filter_levels "$shared/+/y")
                      (levels "$shared/x/y"))
    by (by apply matchDeep_LevelsMatch).
  split; [by repeat split|]. split.
  - split; [done|]. split; [|done].
    by rewrite <- matchDeep_LevelsMatch.
  - intros Hall. by apply Hall in Hshared.
Qed.

(** C5, amended.  [matchDeep] compares two level sequences by the rules
    of the specification: both exhausted is a match; filter exhausted with
    topic left is no match; topic exhausted with filter left matches
    exactly when the current filter level is ["#"]; a ["#"] level matches
    whatever is left of the topic; a ["+"] level or an equal level
    continues with the rest of both; anything else is no match
    ([LevelsMatch]).  The sequences are the pieces between the ['/'], none
    for the empty string.  For every filter whose text does not begin with
    [$share], [match] is that comparison on the level sequences of filter
    and topic.  For a shared subscription, a filter whose first level is
    [$share] and which has a group level, [match] accepts the topic equal
    to the filter and for every other topic is that comparison on the
    levels of the filter after the first two.  So [sensors/+/status]
    matches [sensors/temp/status] and does not match
    [sensors/temp/zone/status]. *)
Theorem matcher_compares_level_by_level :
  (routeSplit "" = inr [] ∧ topicSplit "" = []) ∧
  matchDeep [] [] = true ∧
  (∀ topic0 topic', matchDeep [] (topic0 :: topic') = false) ∧
  (∀ route0 route', matchDeep (route0 :: route') [] = String.eqb route0 "#") ∧
  (∀ route' topic, matchDeep ("#" :: route') topic = true) ∧
  (∀ route0 route' topic0 topic',
     route0 ≠ "#" -> route0 = "+" ∨ route0 = topic0 ->
     matchDeep (route0 :: route') (topic0 :: topic')
     = matchDeep route' topic') ∧
  (∀ route0 route' topic0 topic',
     route0 ≠ "#" -> route0 ≠ "+" -> route0 ≠ topic0 ->
     matchDeep (route0 :: route') (topic0 :: topic') = false) ∧
  (∀ route topic, matchDeep route topic = true ↔ LevelsMatch route topic) ∧
  (∀ route topic, HasPrefix route "$share" = false ->
     match_ route topic = inr (matchDeep (levels route) (levels topic))) ∧
  (∀ route topic, HasPrefix route "$share" = false ->
     spec_filter_levels route = levels route ∧
     (match_ route topic = inr true ↔
      LevelsMatch (spec_filter_levels route) (levels topic)) ∧
     (match_ route topic = inr false ↔
      ¬ LevelsMatch (spec_filter_levels route) (levels topic))) ∧
  (∀ route group route' topic,
     levels route = "$share" :: group :: route' ->
     spec_filter_levels route = route' ∧
     match_ route route = inr true ∧
     (route ≠ topic ->
      match_ route topic
      = inr (matchDeep (spec_filter_levels route) (levels topic)))) ∧
  match_ "sensors/+/status" "sensors/temp/status" = inr true ∧
  match_ "sensors/+/status" "sensors/temp/zone/status" = inr false.
Proof.
  split; [done|]. split; [done|]. split; [done|]. split; [done|].
  split; [by intros route' [|topic0 topic']|].
  split.
  { intros route0 route' topic0 topic' Hhash Hstep. simpl.
    apply String.eqb_neq in Hhash. rewrite Hhash.
    destruct Hstep as [->| ->]; [done|].
    by rewrite String.eqb_refl, orb_true_r. }
  split.
  { intros route0 route' topic0 topic' Hhash Hplus Hlit. simpl.
    apply String.eqb_neq in Hhash, Hplus, Hlit.
    by rewrite Hhash, Hplus, Hlit. }
  split; [intros route topic; apply matchDeep_LevelsMatch|].
  split; [apply match_levels|].
  split.
  { intros route topic Hshare.
    rewrite (spec_filter_levels_no_share _ Hshare), (match_levels _ _ Hshare).
    split; [done|]. rewrite <- matchDeep_LevelsMatch.
    destruct (matchDeep (levels route) (levels topic)); split; split;
      congruence. }
  split; [|split; reflexivity].
  intros route group route' topic Hlevels.
  assert (spec_filter_levels route = route') as Hspec.
  { unfold spec_filter_levels. rewrite Hlevels. by rewrite decide_True. }
  split; [done|]. split.
  { unfold match_. by rewrite String.eqb_refl. }
  intros Hne.
  rewrite match_by_cases, (levels_share_HasPrefix _ _ Hlevels), Hspec, Hlevels.
  apply String.eqb_neq in Hne. by rewrite Hne.
Qed.

(** The ["+"] rule and the literal rule at [sensors/+/status] against
    [sensors/temp/status]; [sensors/#] as a filter without [$share]; the
    shared filter [$share/group/a/+]. *)
Lemma matcher_compares_level_by_level_witness :
  matchDeep ["sensors"; "+"; "status"] ["sensors"; "temp"; "status"]
  = matchDeep ["+"; "status"] ["temp"; "status"] ∧
  matchDeep ["+"; "status"] ["temp"; "status"]
  = matchDeep ["status"] ["status"] ∧
  matchDeep ["x"] ["y"] = false ∧
  match_ "sensors/#" "sensors/temp/zone1/status"
  = inr (matchDeep ["sensors"; "#"] ["sensors"; "temp"; "zone1"; "status"]) ∧
  (match_ "sensors/+/status" "sensors/temp/status" = inr true ↔
   LevelsMatch (spec_filter_levels "sensors/+/status")
     (levels "sensors/temp/status")) ∧
  match_ "$share/group/a/+" "a/b" = inr (matchDeep ["a"; "+"] ["a"; "b"]).
Proof.
  destruct matcher_compares_level_by_level
    as (_ & _ & _ & _ & _ & Hstep & Hstop & _ & Hmatch & Hspec & Hshared & _).
  split; [apply Hstep; [done|by right]|].
  split; [apply Hstep; [done|by left]|].
  split; [by apply Hstop|].
  split; [apply (Hmatch "sensors/#" "sensors/temp/zone1/status"); reflexivity|].
  split.
  - apply (Hspec "sensors/+/status" "sensors/temp/status"). reflexivity.
  - apply (Hshared "$share/group/a/+" "group" ["a"; "+"] "a/b");
      [reflexivity|discriminate].
Defined.

(** Both filters of claim C2 split into the levels [a], [b]. *)
Lemma match_shared_a_b topic :
  match_ "$share/group/a/b" topic
  = inr (String.eqb "$share/group/a/b" topic
         || matchDeep ["a"; "b"] (topicSplit topic)).
Proof.
  unfold match_. by destruct (String.eqb "$share/group/a/b" topic).
Qed.

Lemma match_a_b topic :
  match_ "a/b" topic = inr (matchDeep ["a"; "b"] (topicSplit topic)).
Proof.
  unfold match_. destruct (String.eqb "a/b" topic) eqn:Heq; [|done].
  by apply String.eqb_eq in Heq as <-.
Qed.

(** C2, as stated, fails: the topic [$share/group/a/b] is matched by the
    filter of the same text, through the equality test that [match] makes
    first, and not by [a/b]. *)
Lemma shared_filter_matches_its_own_text :
  ¬ (∀ topic, match_ "$share/group/a/b" topic = match_ "a/b" topic).
Proof. intros Hall. by specialize (Hall "$share/group/a/b"). Qed.

(** C2, amended.  For every topic other than the text of the shared
    filter itself, the matcher gives the same verdict for
    [$share/group/a/b] and for [a/b]. *)
Theorem shared_filter_stripped topic :
  topic ≠ "$share/group/a/b" ->
  match_ "$share/group/a/b" topic = match_ "a/b" topic.
Proof.
  intros Hne. rewrite match_shared_a_b, match_a_b.
  assert (String.eqb "$share/group/a/b" topic = false) as ->; [|done].
  by apply String.eqb_neq.
Qed.

Lemma shared_filter_stripped_witness :
  match_ "$share/group/a/b" "a/b" = match_ "a/b" "a/b" ∧
  match_ "$share/group/a/b" "a/c" = match_ "a/b" "a/c".
Proof.
  split; apply shared_filter_stripped; discriminate.
Defined.


End MatcherFacts.


(** ** Dispatch *)

Module DispatchFacts.
Import Go Matcher Dispatch.

Section Facts.
Context {H W : Type} (invoke : H -> W -> W).
Implicit Types (s : State H W) (entries : list (string * list H)).

Lemma range_handlers_spec route (handlers : list H) : ∀ s,
  let s' := range_handlers invoke route handlers s in
  calls s' = calls s ++ (Registered route <$> handlers) ∧
  handlerCalled s'
  = handlerCalled s || negb (Nat.eqb (length handlers) 0) ∧
  world s' = run_calls invoke (Registered route <$> handlers) (world s).
Proof.
  induction handlers as [|h handlers IH]; intros s; simpl.
  - by rewrite app_nil_r, orb_false_r.
  - destruct (IH {| world := invoke h (world s); handlerCalled := true;
                    calls := calls s ++ [Registered route h] |})
      as (Hcalls & Hcalled & Hworld).
    simpl in *. rewrite Hcalls, Hcalled, Hworld, <- app_assoc.
    by rewrite orb_true_r.
Qed.

Lemma run_calls_app (cs1 cs2 : list (Call H)) w :
  run_calls invoke (cs1 ++ cs2) w
  = run_calls invoke cs2 (run_calls invoke cs1 w).
Proof. apply foldl_app. Qed.

(** The scan of the subscriptions, when no filter makes it panic. *)
Lemma range_subscriptions_spec topic entries : ∀ s s',
  range_subscriptions invoke entries topic s = inr s' ->
  calls s' = calls s ++ matched_calls entries topic ∧
  handlerCalled s'
  = handlerCalled s || negb (Nat.eqb (length (matched_calls entries topic)) 0) ∧
  world s' = run_calls invoke (matched_calls entries topic) (world s).
Proof.
  induction entries as [|[route handlers] entries IH]; intros s s' Hscan;
    simpl in Hscan.
  - simplify_eq. simpl. by rewrite app_nil_r, orb_false_r.
  - simpl. destruct (match_ route topic) as [fault|[|]]; simpl in Hscan;
      [done| |by apply IH].
    apply IH in Hscan as (Hcalls & Hcalled & Hworld).
    destruct (range_handlers_spec route handlers s) as (Hc & Hb & Hw).
    rewrite Hc in Hcalls. rewrite Hb in Hcalled. rewrite Hw in Hworld.
    rewrite Hcalls, Hcalled, Hworld, run_calls_app, length_app, <- app_assoc.
    split; [done|]. split; [|done].
    rewrite length_fmap.
    destruct (handlerCalled s); simpl; [done|].
    by destruct (length handlers), (length (matched_calls entries topic)).
Qed.

(** The scan completes when every filter it meets can be split. *)
Lemma range_subscriptions_completes topic entries : ∀ s,
  (∀ route handlers, (route, handlers) ∈ entries -> splits route) ->
  ∃ s', range_subscriptions invoke entries topic s = inr s'.
Proof.
  induction entries as [|[route handlers] entries IH]; intros s Hsplits; simpl.
  - by eexists.
  - destruct (Hsplits route handlers) as [route_levels Hsplit];
      [by left|].
    assert (∃ b, match_ route topic = inr b) as [b ->].
    { unfold match_, routeIncludesTopic. rewrite Hsplit.
      destruct (String.eqb route topic); by eexists. }
    simpl. apply IH. intros route' handlers' Hin.
    apply (Hsplits route' handlers'). by right.
Qed.

Lemma range_subscriptions_fault topic entries : ∀ s fault,
  range_subscriptions invoke entries topic s = inl fault ->
  fault = SliceBoundsOutOfRange.
Proof.
  induction entries as [|[route handlers] entries IH]; intros s fault;
    simpl; [done|].
  destruct (match_ route topic) as [fault'|matched] eqn:Hmatch; simpl.
  - intros [= <-]. by apply MatcherFacts.match_fault in Hmatch.
  - apply IH.
Qed.

Lemma matched_calls_registered entries topic (c : Call H) :
  c ∈ matched_calls entries topic ->
  ∃ route handlers h,
    c = Registered route h ∧ (route, handlers) ∈ entries ∧ h ∈ handlers ∧
    match_ route topic = inr true.
Proof.
  induction entries as [|[route handlers] entries IH]; simpl; [by inversion 1|].
  intros Hin.
  assert (c ∈ matched_calls entries topic ->
          ∃ route' handlers' h,
            c = Registered route' h ∧
            (route', handlers') ∈ (route, handlers) :: entries ∧
            h ∈ handlers' ∧ match_ route' topic = inr true) as Hrest.
  { intros Hc. destruct (IH Hc) as (route' & handlers' & h & -> & ? & ? & ?).
    exists route', handlers', h. repeat split; try done. by right. }
  destruct (match_ route topic) as [fault|[|]] eqn:Hmatch; [by auto| |by auto].
  apply elem_of_app in Hin as [Hin|Hin]; [|by auto].
  apply list_elem_of_fmap in Hin as (h & -> & Hh).
  exists route, handlers, h. repeat split; try done. by left.
Qed.

Lemma matched_calls_complete entries topic route handlers (h : H) :
  (route, handlers) ∈ entries -> h ∈ handlers ->
  match_ route topic = inr true ->
  Registered route h ∈ matched_calls entries topic.
Proof.
  intros Hentry Hh Hmatch.
  induction entries as [|[route' handlers'] entries IH]; [by inversion Hentry|].
  simpl. apply elem_of_cons in Hentry as [Heq|Hentry].
  - simplify_eq. rewrite Hmatch. apply elem_of_app. left.
    by apply list_elem_of_fmap_2.
  - specialize (IH Hentry).
    destruct (match_ route' topic) as [fault|[|]]; [done| |done].
    apply elem_of_app. by right.
Qed.

Lemma matched_calls_none entries topic :
  (∀ route handlers,
     (route, handlers) ∈ entries -> match_ route topic = inr false) ->
  matched_calls (H := H) entries topic = [].
Proof.
  induction entries as [|[route handlers] entries IH]; intros Hnone; [done|].
  simpl. rewrite (Hnone route handlers); [|by left].
  apply IH. intros route' handlers' Hin. apply (Hnone route' handlers').
  by right.
Qed.

(** A whole dispatch after the topic is resolved: the scan, then the
    default handler.  The calls are those of the matching filters; the
    default handler is called, once and last, exactly when it is set and
    there were none. *)
Lemma dispatch_spec topic entries (defaultHandler : option H) w s :
  range_subscriptions invoke entries topic (start w) = inr s ->
  let s' := call_default invoke defaultHandler s in
  calls s'
  = matched_calls entries topic ++
    match defaultHandler, matched_calls entries topic with
    | Some d, [] => [Default d]
    | _, _ => []
    end ∧
  world s' = run_calls invoke (calls s') w.
Proof.
  intros Hscan. apply range_subscriptions_spec in Hscan
    as (Hcalls & Hcalled & Hworld). simpl in *.
  unfold call_default. destruct defaultHandler as [d|].
  - rewrite Hcalled. destruct (matched_calls entries topic) as [|c cs]; simpl.
    + by rewrite Hcalls, Hworld.
    + by rewrite Hcalls, Hworld, app_nil_r.
  - rewrite Hcalls, Hworld. by destruct (matched_calls entries topic);
      rewrite app_nil_r.
Qed.

(** A handler registered under a matching filter is among the calls of
    the dispatch. *)
Lemma dispatch_calls_registered topic entries (defaultHandler : option H) w s
    route handlers h :
  range_subscriptions invoke entries topic (start w) = inr s ->
  (route, handlers) ∈ entries -> h ∈ handlers ->
  match_ route topic = inr true ->
  Registered route h ∈ calls (call_default invoke defaultHandler s).
Proof.
  intros Hscan Hentry Hh Hmatch.
  destruct (dispatch_spec topic entries defaultHandler w s Hscan) as [-> _].
  apply elem_of_app. left. by eapply matched_calls_complete.
Qed.

Lemma default_call_iff topic entries (defaultHandler : option H) w s :
  range_subscriptions invoke entries topic (start w) = inr s ->
  let s' := call_default invoke defaultHandler s in
  (∀ d, Default d ∈ calls s' ↔
        defaultHandler = Some d ∧ ∀ route h, Registered route h ∉ calls s') ∧
  (∀ d, Default d ∈ calls s' ->
        calls s' = [Default d] ∧ world s' = invoke d w).
Proof.
  intros Hscan s'.
  destruct (dispatch_spec topic entries defaultHandler w s Hscan)
    as [Hcalls Hworld]. fold s' in Hcalls, Hworld.
  assert (Hfwd : ∀ d, Default d ∈ calls s' ->
            defaultHandler = Some d ∧ calls s' = [Default d]).
  { intros d Hd. rewrite Hcalls in Hd |- *.
    apply elem_of_app in Hd as [Hd|Hd].
    { apply matched_calls_registered in Hd as (? & ? & ? & ? & _). done. }
    destruct defaultHandler as [d'|]; [|by inversion Hd].
    destruct (matched_calls entries topic); [|by inversion Hd].
    apply list_elem_of_singleton in Hd. by simplify_eq. }
  split.
  - intros d. split.
    + intros Hd. destruct (Hfwd d Hd) as [-> Hall]. split; [done|].
      intros route h Hin. rewrite Hall in Hin.
      by apply list_elem_of_singleton in Hin.
    + intros [-> Hnone]. rewrite Hcalls in Hnone |- *.
      destruct (matched_calls entries topic) as [|c cs] eqn:Hm.
      { simpl. by left. }
      assert (c ∈ matched_calls entries topic) as Hc by (rewrite Hm; by left).
      apply matched_calls_registered in Hc as (route & ? & h & -> & _).
      exfalso. apply (Hnone route h). by left.
  - intros d Hd. destruct (Hfwd d Hd) as [_ Hall]. split; [done|].
    by rewrite Hworld, Hall.
Qed.

(** Which calls a dispatch makes, read off the entries it scans: the
    handlers of the matching filters, and the default handler when it is
    set and no matching filter has a handler. *)
Lemma dispatch_calls_iff topic entries (defaultHandler : option H) w s :
  range_subscriptions invoke entries topic (start w) = inr s ->
  let s' := call_default invoke defaultHandler s in
  (∀ route h, Registered route h ∈ calls s' ↔
     ∃ handlers, (route, handlers) ∈ entries ∧ h ∈ handlers ∧
                 match_ route topic = inr true) ∧
  (∀ d, Default d ∈ calls s' ↔
     defaultHandler = Some d ∧
     ∀ route handlers, (route, handlers) ∈ entries ->
       match_ route topic = inr true -> handlers = []).
Proof.
  intros Hscan s'.
  destruct (dispatch_spec topic entries defaultHandler w s Hscan)
    as [Hcalls _]. fold s' in Hcalls.
  assert (Hreg : ∀ route h, Registered route h ∈ calls s' ↔
            ∃ handlers, (route, handlers) ∈ entries ∧ h ∈ handlers ∧
                        match_ route topic = inr true).
  { intros route h. split.
    - intros Hin. rewrite Hcalls in Hin.
      apply elem_of_app in Hin as [Hin|Hin].
      + apply matched_calls_registered in Hin
          as (route' & handlers & h' & Heq & Hentry & Hh & Hmatch).
        injection Heq as -> ->. by exists handlers.
      + destruct defaultHandler as [d|]; [|by inversion Hin].
        destruct (matched_calls entries topic); [|by inversion Hin].
        by apply list_elem_of_singleton in Hin.
    - intros (handlers & Hentry & Hh & Hmatch).
      by apply (dispatch_calls_registered topic entries defaultHandler w s
                  route handlers h Hscan). }
  split; [exact Hreg|].
  intros d.
  etrans; [exact (proj1 (default_call_iff topic entries defaultHandler w s
                           Hscan) d)|].
  fold s'. split; intros [Hd Hnone]; (split; [done|]).
  - intros route [|h handlers] Hentry Hmatch; [done|].
    exfalso. apply (Hnone route h). apply Hreg.
    exists (h :: handlers). repeat split; [done| |done]. by left.
  - intros route h Hin. apply Hreg in Hin as (handlers & Hentry & Hh & Hmatch).
    rewrite (Hnone route handlers Hentry Hmatch) in Hh. by inversion Hh.
Qed.

(** A handler registered under a matching filter is run: the dispatch
    applies it to the world the earlier calls left, the later calls act on
    what it returns, and the default handler is not among them. *)
Lemma dispatch_runs_registered topic entries (defaultHandler : option H) w s
    route handlers h :
  range_subscriptions invoke entries topic (start w) = inr s ->
  (route, handlers) ∈ entries -> h ∈ handlers ->
  match_ route topic = inr true ->
  let s' := call_default invoke defaultHandler s in
  ∃ before after,
    calls s' = before ++ Registered route h :: after ∧
    world s'
    = run_calls invoke after (invoke h (run_calls invoke before w)) ∧
    ∀ d, Default d ∉ calls s'.
Proof.
  intros Hscan Hentry Hh Hmatch s'.
  pose proof (dispatch_calls_registered topic entries defaultHandler w s
                route handlers h Hscan Hentry Hh Hmatch) as Hin.
  fold s' in Hin.
  destruct (dispatch_spec topic entries defaultHandler w s Hscan)
    as [_ Hworld]. fold s' in Hworld.
  destruct (list_elem_of_split _ _ Hin) as (before & after & Hcalls).
  exists before, after. split; [done|]. split.
  - rewrite Hworld, Hcalls, run_calls_app. reflexivity.
  - intros d Hd.
    apply (proj1 (default_call_iff topic entries defaultHandler w s Hscan))
      in Hd as [_ Hnone].
    by apply (Hnone route h).
Qed.

End Facts.
End DispatchFacts.

(** ** The routers *)

Module RouterFacts.
Import Go Matcher Dispatch DispatchFacts.

(** Case analysis on the result of the scan inside a [Route]. *)
Ltac destruct_scan Hroute s Hscan :=
  match type of Hroute with
  | context [range_subscriptions ?invoke ?entries ?topic ?s0] =>
      destruct (range_subscriptions invoke entries topic s0)
        as [|s] eqn:Hscan
  end.
Tactic Notation "destruct_scan" hyp(Hroute) "as" ident(s) ident(Hscan) :=
  destruct_scan Hroute s Hscan.

Lemma iteration_of_elem {H : Type} (subscriptions : gmap string (list H))
    entries route handlers :
  iteration_of subscriptions entries ->
  (route, handlers) ∈ entries ↔ subscriptions !! route = Some handlers.
Proof.
  unfold iteration_of. intros ->. apply elem_of_map_to_list.
Qed.

(** The alias step, by cases. *)
Lemma resolve_topic_alias aliases props pb m alias :
  packets.TopicAlias props = Some alias ->
  resolve_topic aliases props pb m
  = if decide (packets.Topic pb ≠ "")
    then (<[alias := packets.Topic pb]> aliases, packets.Topic pb)
    else (aliases, default "" (aliases !! alias)).
Proof.
  intros Halias. unfold resolve_topic. rewrite Halias.
  case_decide; [|done]. by rewrite lookup_insert_eq.
Qed.

Lemma resolve_topic_no_alias aliases props pb m :
  packets.TopicAlias props = None ->
  resolve_topic aliases props pb m = (aliases, paho.Topic m).
Proof. intros Halias. unfold resolve_topic. by rewrite Halias. Qed.



Section Standard.
Import StandardRouter.
Context {W : Type}.
Implicit Types (r : StandardRouter W) (pb : packets.Publish).

(** What a [StandardRouter.Route] that returns has done. *)
Lemma Route_inv r entries pb w r' out :
  Route r entries pb w = inr (r', out) ->
  let m := paho.PublishFromPacketPublish pb in
  ∃ props s,
    packets.Properties_ pb = Some props ∧
    r' = {| defaultHandler := defaultHandler r;
            subscriptions := subscriptions r;
            aliases := (resolve_topic (aliases r) props pb m).1 |} ∧
    topic out = (resolve_topic (aliases r) props pb m).2 ∧
    range_subscriptions (λ handler, handler m) entries (topic out) (start w)
    = inr s ∧
    final out = call_default (λ handler, handler m) (defaultHandler r) s.
Proof.
  intros Hroute m. unfold Route in Hroute.
  destruct (packets.Properties_ pb) as [props|]; [|done]. simpl in Hroute.
  fold m in Hroute.
  destruct (resolve_topic (aliases r) props pb m) as [aliases' topic']
    eqn:Hresolve.
  destruct_scan Hroute as s Hscan; simpl in Hroute; [done|].
  cbv [mret fault_ret] in Hroute. simplify_eq. simpl.
  exists props, s. by rewrite Hresolve.
Qed.

(** [StandardRouter.Route] returns when the publish has properties and
    every filter the scan meets can be split. *)
Lemma Route_completes r entries pb w props :
  packets.Properties_ pb = Some props ->
  (∀ route handlers, (route, handlers) ∈ entries -> splits route) ->
  ∃ r' out, Route r entries pb w = inr (r', out).
Proof.
  intros Hprops Hsplits. unfold Route. rewrite Hprops. simpl.
  destruct (resolve_topic _ _ _ _) as [aliases' topic'].
  match goal with
  | |- context [range_subscriptions ?invoke entries topic' (start w)] =>
      destruct (range_subscriptions_completes invoke topic' entries (start w)
                  Hsplits) as [s Hscan]
  end.
  rewrite Hscan. simpl. by do 2 eexists.
Qed.

(** The alias step inside [StandardRouter.Route]. *)
Lemma Route_alias r entries pb w r' out props alias :
  Route r entries pb w = inr (r', out) ->
  packets.Properties_ pb = Some props ->
  packets.TopicAlias props = Some alias ->
  (aliases r', topic out)
  = (if decide (packets.Topic pb ≠ "")
     then (<[alias := packets.Topic pb]> (aliases r), packets.Topic pb)
     else (aliases r, default "" (aliases r !! alias))) ∧
  subscriptions r' = subscriptions r ∧ defaultHandler r' = defaultHandler r.
Proof.
  intros Hroute Hprops Halias.
  apply Route_inv in Hroute as (props' & s & Hprops' & -> & -> & _).
  rewrite Hprops in Hprops'. injection Hprops' as <-. simpl.
  split; [|done].
  rewrite <- (resolve_topic_alias (aliases r) props pb
                (paho.PublishFromPacketPublish pb) alias Halias).
  by destruct (resolve_topic _ _ _ _).
Qed.

Lemma Route_runs_registered r entries pb w r' out route handlers h :
  Route r entries pb w = inr (r', out) ->
  (route, handlers) ∈ entries -> h ∈ handlers ->
  match_ route (topic out) = inr true ->
  let m := paho.PublishFromPacketPublish pb in
  ∃ before after,
    calls (final out) = before ++ Registered route h :: after ∧
    world (final out)
    = run_calls (λ handler, handler m) after
        (h m (run_calls (λ handler, handler m) before w)) ∧
    ∀ d, Default d ∉ calls (final out).
Proof.
  intros Hroute Hentry Hh Hmatch m.
  apply Route_inv in Hroute as (props & s & _ & _ & _ & Hscan & ->).
  exact (dispatch_runs_registered _ _ _ (defaultHandler r) _ _ _ _ _
           Hscan Hentry Hh Hmatch).
Qed.

Lemma Route_calls_registered r entries pb w r' out route handlers h :
  Route r entries pb w = inr (r', out) ->
  (route, handlers) ∈ entries -> h ∈ handlers ->
  match_ route (topic out) = inr true ->
  Registered route h ∈ calls (final out).
Proof.
  intros Hroute Hentry Hh Hmatch.
  apply Route_inv in Hroute as (props & s & _ & _ & _ & Hscan & ->).
  by eapply dispatch_calls_registered.
Qed.

End Standard.

Section WithContext.
Import ContextRouter.
Context {W : Type}.
Implicit Types (r : Router W) (pb : packets.Publish) (ctx : Context).

(** What a [Route] of a context-aware router that returns has done. *)
Lemma route_in_inv ctx r entries pb w r' out :
  route_in ctx r entries pb w = inr (r', out) ->
  let m := paho.PublishFromPacketPublish pb in
  ∃ props s,
    packets.Properties_ pb = Some props ∧
    r' = {| defaultHandler := defaultHandler r;
            subscriptions := subscriptions r;
            middlewares := middlewares r;
            aliases := (resolve_topic (aliases r) props pb m).1 |} ∧
    topic out = (resolve_topic (aliases r) props pb m).2 ∧
    range_subscriptions (λ handler, wrapHandler r handler ctx m)
      entries (topic out) (start w) = inr s ∧
    final out
    = call_default (λ handler, wrapHandler r handler ctx m)
        (defaultHandler r) s.
Proof.
  intros Hroute m. unfold route_in in Hroute.
  destruct (packets.Properties_ pb) as [props|]; [|done]. simpl in Hroute.
  fold m in Hroute.
  destruct (resolve_topic (aliases r) props pb m) as [aliases' topic']
    eqn:Hresolve.
  destruct_scan Hroute as s Hscan; simpl in Hroute; [done|].
  cbv [mret fault_ret] in Hroute. simplify_eq. simpl.
  exists props, s. by rewrite Hresolve.
Qed.

Lemma route_in_completes ctx r entries pb w props :
  packets.Properties_ pb = Some props ->
  (∀ route handlers, (route, handlers) ∈ entries -> splits route) ->
  ∃ r' out, route_in ctx r entries pb w = inr (r', out).
Proof.
  intros Hprops Hsplits. unfold route_in. rewrite Hprops. simpl.
  destruct (resolve_topic _ _ _ _) as [aliases' topic'].
  match goal with
  | |- context [range_subscriptions ?invoke entries topic' (start w)] =>
      destruct (range_subscriptions_completes invoke topic' entries (start w)
                  Hsplits) as [s Hscan]
  end.
  rewrite Hscan. simpl. by do 2 eexists.
Qed.

(** The alias step inside the [Route] of a context-aware router. *)
Lemma route_in_alias ctx r entries pb w r' out props alias :
  route_in ctx r entries pb w = inr (r', out) ->
  packets.Properties_ pb = Some props ->
  packets.TopicAlias props = Some alias ->
  (aliases r', topic out)
  = (if decide (packets.Topic pb ≠ "")
     then (<[alias := packets.Topic pb]> (aliases r), packets.Topic pb)
     else (aliases r, default "" (aliases r !! alias))) ∧
  subscriptions r' = subscriptions r ∧ defaultHandler r' = defaultHandler r.
Proof.
  intros Hroute Hprops Halias.
  apply route_in_inv in Hroute as (props' & s & Hprops' & -> & -> & _).
  rewrite Hprops in Hprops'. injection Hprops' as <-. simpl.
  split; [|done].
  rewrite <- (resolve_topic_alias (aliases r) props pb
                (paho.PublishFromPacketPublish pb) alias Halias).
  by destruct (resolve_topic _ _ _ _).
Qed.

Lemma route_in_runs_registered ctx r entries pb w r' out route handlers h :
  route_in ctx r entries pb w = inr (r', out) ->
  (route, handlers) ∈ entries -> h ∈ handlers ->
  match_ route (topic out) = inr true ->
  let m := paho.PublishFromPacketPublish pb in
  ∃ before after,
    calls (final out) = before ++ Registered route h :: after ∧
    world (final out)
    = run_calls (λ handler, wrapHandler r handler ctx m) after
        (wrapHandler r h ctx m
           (run_calls (λ handler, wrapHandler r handler ctx m) before w)) ∧
    ∀ d, Default d ∉ calls (final out).
Proof.
  intros Hroute Hentry Hh Hmatch m.
  apply route_in_inv in Hroute as (props & s & _ & _ & _ & Hscan & ->).
  exact (dispatch_runs_registered _ _ _ (defaultHandler r) _ _ _ _ _
           Hscan Hentry Hh Hmatch).
Qed.

Lemma route_in_middlewares ctx r entries pb w r' out :
  route_in ctx r entries pb w = inr (r', out) ->
  middlewares r' = middlewares r.
Proof.
  intros Hroute.
  by apply route_in_inv in Hroute as (props & s & _ & -> & _).
Qed.

Lemma route_in_calls_registered ctx r entries pb w r' out route handlers h :
  route_in ctx r entries pb w = inr (r', out) ->
  (route, handlers) ∈ entries -> h ∈ handlers ->
  match_ route (topic out) = inr true ->
  Registered route h ∈ calls (final out).
Proof.
  intros Hroute Hentry Hh Hmatch.
  apply route_in_inv in Hroute as (props & s & _ & _ & _ & Hscan & ->).
  by eapply dispatch_calls_registered.
Qed.

End WithContext.

Section Claims.
Context {W : Type}.

(** C10.  Every [Route] reads [pb.Properties.TopicAlias] before it
    matches anything.  For a publish whose [Properties] is nil the three
    [Route] functions panic with a nil dereference, whatever the topic and
    the router; for a publish whose [Properties] is not nil none of them
    does. *)
Theorem Route_dereferences_properties
    (r : StandardRouter.StandardRouter W) (cr : ContextRouter.Router W)
    entries centries (pb : packets.Publish) (w : W) :
  (packets.Properties_ pb = None ->
   StandardRouter.Route r entries pb w = inl NilPointerDereference ∧
   ContextRouter.Route cr centries pb w = inl NilPointerDereference ∧
   ContextRouter.StandardContextRouter_Route cr centries pb w
   = inl NilPointerDereference) ∧
  (packets.Properties_ pb ≠ None ->
   StandardRouter.Route r entries pb w ≠ inl NilPointerDereference ∧
   ContextRouter.Route cr centries pb w ≠ inl NilPointerDereference ∧
   ContextRouter.StandardContextRouter_Route cr centries pb w
   ≠ inl NilPointerDereference).
Proof.
  split.
  - intros Hnil.
    unfold StandardRouter.Route, ContextRouter.Route,
      ContextRouter.StandardContextRouter_Route, ContextRouter.route_in.
    by rewrite Hnil.
  - intros Hprops.
    destruct (packets.Properties_ pb) as [props|] eqn:Hsome; [|done].
    unfold StandardRouter.Route, ContextRouter.Route,
      ContextRouter.StandardContextRouter_Route, ContextRouter.route_in.
    rewrite Hsome. simpl.
    destruct (resolve_topic _ _ _ _) as [aliases' topic'].
    destruct (resolve_topic _ _ _ _) as [caliases' ctopic'].
    repeat split; intros Hroute;
      destruct_scan Hroute as s Hscan; simpl in Hroute; try done;
      apply range_subscriptions_fault in Hscan; congruence.
Qed.

(** C6.  In every dispatch that returns, a registered handler is called
    exactly when it is in the handler list of a filter that matches the
    effective topic, and the default handler is called exactly when it is
    set and no registered handler was called, that is, when no filter
    matches or every matching filter has an empty handler list.  The
    default handler is then the only call; when a registered handler was
    called, the default handler is not.  What the dispatch does to the
    world is what its calls do, in order.  In the context-aware routers the
    default handler is called through [wrapHandler], like the registered
    handlers.  A dispatch returns whenever the message has properties and
    the filters can be split. *)
Theorem default_handler_runs_iff_nothing_else_ran :
  (∀ (r : StandardRouter.StandardRouter W) (cr : ContextRouter.Router W)
     ctx entries centries pb w props,
     packets.Properties_ pb = Some props ->
     (∀ route handlers, (route, handlers) ∈ entries -> splits route) ->
     (∀ route handlers, (route, handlers) ∈ centries -> splits route) ->
     (∃ r' out, StandardRouter.Route r entries pb w = inr (r', out)) ∧
     (∃ r' out, ContextRouter.route_in ctx cr centries pb w = inr (r', out))) ∧
  (∀ (r : StandardRouter.StandardRouter W) entries pb w r' out,
     iteration_of (StandardRouter.subscriptions r) entries ->
     StandardRouter.Route r entries pb w = inr (r', out) ->
     let m := paho.PublishFromPacketPublish pb in
     let cs := calls (final out) in
     (∀ route h, Registered route h ∈ cs ↔
        ∃ handlers,
          StandardRouter.subscriptions r !! route = Some handlers ∧
          h ∈ handlers ∧ match_ route (topic out) = inr true) ∧
     (∀ d, Default d ∈ cs ↔
           StandardRouter.defaultHandler r = Some d ∧
           ∀ route h, Registered route h ∉ cs) ∧
     (∀ d, Default d ∈ cs ↔
           StandardRouter.defaultHandler r = Some d ∧
           ∀ route handlers,
             StandardRouter.subscriptions r !! route = Some handlers ->
             match_ route (topic out) = inr true -> handlers = []) ∧
     (∀ d, Default d ∈ cs ->
           cs = [Default d] ∧ world (final out) = d m w) ∧
     world (final out)
     = foldl (λ w (c : Call (StandardRouter.MessageHandler W)),
                callee c m w) w cs) ∧
  (∀ ctx (r : ContextRouter.Router W) entries pb w r' out,
     iteration_of (ContextRouter.subscriptions r) entries ->
     ContextRouter.route_in ctx r entries pb w = inr (r', out) ->
     let m := paho.PublishFromPacketPublish pb in
     let cs := calls (final out) in
     (∀ route h, Registered route h ∈ cs ↔
        ∃ handlers,
          ContextRouter.subscriptions r !! route = Some handlers ∧
          h ∈ handlers ∧ match_ route (topic out) = inr true) ∧
     (∀ d, Default d ∈ cs ↔
           ContextRouter.defaultHandler r = Some d ∧
           ∀ route h, Registered route h ∉ cs) ∧
     (∀ d, Default d ∈ cs ↔
           ContextRouter.defaultHandler r = Some d ∧
           ∀ route handlers,
             ContextRouter.subscriptions r !! route = Some handlers ->
             match_ route (topic out) = inr true -> handlers = []) ∧
     (∀ d, Default d ∈ cs ->
           cs = [Default d] ∧
           world (final out) = ContextRouter.wrapHandler r d ctx m w) ∧
     world (final out)
     = foldl (λ w (c : Call (ContextRouter.Handler W)),
                ContextRouter.wrapHandler r (callee c) ctx m w) w cs).
Proof.
  split; [|split].
  - intros r cr ctx entries centries pb w props Hprops Hsplits Hcsplits.
    split; [by eapply Route_completes|by eapply route_in_completes].
  - intros r entries pb w r' out Hiter Hroute m cs. subst cs.
    apply Route_inv in Hroute as (props & s & _ & _ & _ & Hscan & ->).
    destruct (dispatch_calls_iff _ _ _ (StandardRouter.defaultHandler r) _ _
                Hscan) as [Hreg Hdef].
    destruct (default_call_iff _ _ _ (StandardRouter.defaultHandler r) _ _
                Hscan) as [Hiff Honly].
    split.
    { intros route h. etrans; [exact (Hreg route h)|].
      split; intros (handlers & Hin & Hh & Hmatch); exists handlers;
        (split; [|done]); by apply (iteration_of_elem _ _ _ _ Hiter). }
    split; [exact Hiff|]. split.
    { intros d. etrans; [exact (Hdef d)|].
      split; intros [Hd Hnone]; (split; [done|]);
        intros route handlers Hin; apply Hnone;
        by apply (iteration_of_elem _ _ _ _ Hiter). }
    split; [exact Honly|].
    exact (proj2 (dispatch_spec _ _ _ (StandardRouter.defaultHandler r) _ _
                    Hscan)).
  - intros ctx r entries pb w r' out Hiter Hroute m cs. subst cs.
    apply route_in_inv in Hroute as (props & s & _ & _ & _ & Hscan & ->).
    destruct (dispatch_calls_iff _ _ _ (ContextRouter.defaultHandler r) _ _
                Hscan) as [Hreg Hdef].
    destruct (default_call_iff _ _ _ (ContextRouter.defaultHandler r) _ _
                Hscan) as [Hiff Honly].
    split.
    { intros route h. etrans; [exact (Hreg route h)|].
      split; intros (handlers & Hin & Hh & Hmatch); exists handlers;
        (split; [|done]); by apply (iteration_of_elem _ _ _ _ Hiter). }
    split; [exact Hiff|]. split.
    { intros d. etrans; [exact (Hdef d)|].
      split; intros [Hd Hnone]; (split; [done|]);
        intros route handlers Hin; apply Hnone;
        by apply (iteration_of_elem _ _ _ _ Hiter). }
    split; [exact Honly|].
    exact (proj2 (dispatch_spec _ _ _ (ContextRouter.defaultHandler r) _ _
                    Hscan)).
Qed.


(** C8.  Alias resolution during dispatch.  A message with an alias and
    a non-empty topic name stores the mapping from the alias to the topic,
    over whatever the alias was mapped to, and is matched against that
    topic; a message with an alias and an empty topic name is matched
    against the cached topic of the alias, or against the empty topic when
    there is none.  So when a message with alias [alias] and non-empty topic
    [t] is followed by a message with the same alias and the empty topic,
    both dispatches return with effective topic [t], and a handler
    registered under a filter that matches [t] (such as [x/y] itself for
    [t = x/y]) fires in both: it is among the calls, the dispatch applies
    it to the message and to the world the earlier calls left, the later
    calls act on what it returns, and the default handler is not called. *)
Theorem topic_alias_resolution :
  (∀ aliases props pb m alias,
     packets.TopicAlias props = Some alias ->
     resolve_topic aliases props pb m
     = if decide (packets.Topic pb ≠ "")
       then (<[alias := packets.Topic pb]> aliases, packets.Topic pb)
       else (aliases, default "" (aliases !! alias))) ∧
  (∀ (r : StandardRouter.StandardRouter W) entries1 entries2 pb1 pb2 w1 w2
     props1 props2 alias route handlers h,
     iteration_of (StandardRouter.subscriptions r) entries1 ->
     iteration_of (StandardRouter.subscriptions r) entries2 ->
     packets.Properties_ pb1 = Some props1 ->
     packets.TopicAlias props1 = Some alias ->
     packets.Topic pb1 ≠ "" ->
     packets.Properties_ pb2 = Some props2 ->
     packets.TopicAlias props2 = Some alias ->
     packets.Topic pb2 = "" ->
     StandardRouter.subscriptions r !! route = Some handlers ->
     h ∈ handlers ->
     match_ route (packets.Topic pb1) = inr true ->
     (∀ route' handlers',
        StandardRouter.subscriptions r !! route' = Some handlers' ->
        splits route') ->
     let m1 := paho.PublishFromPacketPublish pb1 in
     let m2 := paho.PublishFromPacketPublish pb2 in
     ∃ r1 out1 r2 out2,
       StandardRouter.Route r entries1 pb1 w1 = inr (r1, out1) ∧
       StandardRouter.Route r1 entries2 pb2 w2 = inr (r2, out2) ∧
       StandardRouter.aliases r1 !! alias = Some (packets.Topic pb1) ∧
       topic out1 = packets.Topic pb1 ∧
       topic out2 = packets.Topic pb1 ∧
       Registered route h ∈ calls (final out1) ∧
       Registered route h ∈ calls (final out2) ∧
       (∃ before after,
          calls (final out1) = before ++ Registered route h :: after ∧
          world (final out1)
          = run_calls (λ handler, handler m1) after
              (h m1 (run_calls (λ handler, handler m1) before w1)) ∧
          ∀ d, Default d ∉ calls (final out1)) ∧
       (∃ before after,
          calls (final out2) = before ++ Registered route h :: after ∧
          world (final out2)
          = run_calls (λ handler, handler m2) after
              (h m2 (run_calls (λ handler, handler m2) before w2)) ∧
          ∀ d, Default d ∉ calls (final out2))) ∧
  (∀ ctx (r : ContextRouter.Router W) entries1 entries2 pb1 pb2 w1 w2
     props1 props2 alias route handlers h,
     iteration_of (ContextRouter.subscriptions r) entries1 ->
     iteration_of (ContextRouter.subscriptions r) entries2 ->
     packets.Properties_ pb1 = Some props1 ->
     packets.TopicAlias props1 = Some alias ->
     packets.Topic pb1 ≠ "" ->
     packets.Properties_ pb2 = Some props2 ->
     packets.TopicAlias props2 = Some alias ->
     packets.Topic pb2 = "" ->
     ContextRouter.subscriptions r !! route = Some handlers ->
     h ∈ handlers ->
     match_ route (packets.Topic pb1) = inr true ->
     (∀ route' handlers',
        ContextRouter.subscriptions r !! route' = Some handlers' ->
        splits route') ->
     let m1 := paho.PublishFromPacketPublish pb1 in
     let m2 := paho.PublishFromPacketPublish pb2 in
     let wrapped := ContextRouter.wrapHandler r in
     ∃ r1 out1 r2 out2,
       ContextRouter.route_in ctx r entries1 pb1 w1 = inr (r1, out1) ∧
       ContextRouter.route_in ctx r1 entries2 pb2 w2 = inr (r2, out2) ∧
       ContextRouter.aliases r1 !! alias = Some (packets.Topic pb1) ∧
       topic out1 = packets.Topic pb1 ∧
       topic out2 = packets.Topic pb1 ∧
       Registered route h ∈ calls (final out1) ∧
       Registered route h ∈ calls (final out2) ∧
       (∃ before after,
          calls (final out1) = before ++ Registered route h :: after ∧
          world (final out1)
          = run_calls (λ handler, wrapped handler ctx m1) after
              (wrapped h ctx m1
                 (run_calls (λ handler, wrapped handler ctx m1) before w1)) ∧
          ∀ d, Default d ∉ calls (final out1)) ∧
       (∃ before after,
          calls (final out2) = before ++ Registered route h :: after ∧
          world (final out2)
          = run_calls (λ handler, wrapped handler ctx m2) after
              (wrapped h ctx m2
                 (run_calls (λ handler, wrapped handler ctx m2) before w2)) ∧
          ∀ d, Default d ∉ calls (final out2))).
Proof.
  split; [exact resolve_topic_alias|]. split.
  - intros r entries1 entries2 pb1 pb2 w1 w2 props1 props2 alias route
      handlers h Hiter1 Hiter2 Hprops1 Halias1 Htopic1 Hprops2 Halias2 Htopic2
      Hroute Hh Hmatch Hsplits m1 m2.
    destruct (Route_completes r entries1 pb1 w1 props1 Hprops1)
      as (r1 & out1 & Hroute1).
    { intros route' handlers' Hin. apply (Hsplits route' handlers').
      by apply (iteration_of_elem _ _ _ _ Hiter1). }
    destruct (Route_alias _ _ _ _ _ _ _ _ Hroute1 Hprops1 Halias1)
      as (Hstep1 & Hsubs1 & _).
    rewrite decide_True in Hstep1 by done. injection Hstep1 as Haliases1 Hout1.
    destruct (Route_completes r1 entries2 pb2 w2 props2 Hprops2)
      as (r2 & out2 & Hroute2).
    { intros route' handlers' Hin. apply (Hsplits route' handlers').
      by apply (iteration_of_elem _ _ _ _ Hiter2). }
    destruct (Route_alias _ _ _ _ _ _ _ _ Hroute2 Hprops2 Halias2)
      as (Hstep2 & _ & _).
    rewrite Htopic2, decide_False in Hstep2 by (by intros Hne).
    injection Hstep2 as _ Hout2.
    assert (Hcached : StandardRouter.aliases r1 !! alias
                      = Some (packets.Topic pb1)).
    { rewrite Haliases1. apply lookup_insert_eq. }
    rewrite Hcached in Hout2. simpl in Hout2.
    assert (Hentry1 : (route, handlers) ∈ entries1)
      by (by apply (iteration_of_elem _ _ _ _ Hiter1)).
    assert (Hentry2 : (route, handlers) ∈ entries2)
      by (by apply (iteration_of_elem _ _ _ _ Hiter2)).
    assert (Hmatch1 : match_ route (topic out1) = inr true)
      by (by rewrite Hout1).
    assert (Hmatch2 : match_ route (topic out2) = inr true)
      by (by rewrite Hout2).
    exists r1, out1, r2, out2.
    split; [done|]. split; [done|]. split; [done|]. split; [done|].
    split; [done|].
    split; [by eapply Route_calls_registered|].
    split; [by eapply Route_calls_registered|].
    split.
    + exact (Route_runs_registered _ _ _ _ _ _ _ _ _
               Hroute1 Hentry1 Hh Hmatch1).
    + exact (Route_runs_registered _ _ _ _ _ _ _ _ _
               Hroute2 Hentry2 Hh Hmatch2).
  - intros ctx r entries1 entries2 pb1 pb2 w1 w2 props1 props2 alias route
      handlers h Hiter1 Hiter2 Hprops1 Halias1 Htopic1 Hprops2 Halias2 Htopic2
      Hroute Hh Hmatch Hsplits m1 m2 wrapped.
    destruct (route_in_completes ctx r entries1 pb1 w1 props1 Hprops1)
      as (r1 & out1 & Hroute1).
    { intros route' handlers' Hin. apply (Hsplits route' handlers').
      by apply (iteration_of_elem _ _ _ _ Hiter1). }
    destruct (route_in_alias _ _ _ _ _ _ _ _ _ Hroute1 Hprops1 Halias1)
      as (Hstep1 & Hsubs1 & _).
    rewrite decide_True in Hstep1 by done. injection Hstep1 as Haliases1 Hout1.
    destruct (route_in_completes ctx r1 entries2 pb2 w2 props2 Hprops2)
      as (r2 & out2 & Hroute2).
    { intros route' handlers' Hin. apply (Hsplits route' handlers').
      by apply (iteration_of_elem _ _ _ _ Hiter2). }
    destruct (route_in_alias _ _ _ _ _ _ _ _ _ Hroute2 Hprops2 Halias2)
      as (Hstep2 & _ & _).
    rewrite Htopic2, decide_False in Hstep2 by (by intros Hne).
    injection Hstep2 as _ Hout2.
    assert (Hcached : ContextRouter.aliases r1 !! alias
                      = Some (packets.Topic pb1)).
    { rewrite Haliases1. apply lookup_insert_eq. }
    rewrite Hcached in Hout2. simpl in Hout2.
    assert (Hentry1 : (route, handlers) ∈ entries1)
      by (by apply (iteration_of_elem _ _ _ _ Hiter1)).
    assert (Hentry2 : (route, handlers) ∈ entries2)
      by (by apply (iteration_of_elem _ _ _ _ Hiter2)).
    assert (Hmatch1 : match_ route (topic out1) = inr true)
      by (by rewrite Hout1).
    assert (Hmatch2 : match_ route (topic out2) = inr true)
      by (by rewrite Hout2).
    assert (Hwrapped : ContextRouter.wrapHandler r1 = wrapped).
    { unfold wrapped, ContextRouter.wrapHandler.
      by rewrite (route_in_middlewares _ _ _ _ _ _ _ Hroute1). }
    exists r1, out1, r2, out2.
    split; [done|]. split; [done|]. split; [done|]. split; [done|].
    split; [done|].
    split; [by eapply route_in_calls_registered|].
    split; [by eapply route_in_calls_registered|].
    split.
    + exact (route_in_runs_registered _ _ _ _ _ _ _ _ _ _
               Hroute1 Hentry1 Hh Hmatch1).
    + rewrite <- Hwrapped.
      exact (route_in_runs_registered _ _ _ _ _ _ _ _ _ _
               Hroute2 Hentry2 Hh Hmatch2).
Qed.

End Claims.

(** A publish without properties on [specific/topic], where a handler is
    registered, and the same publish with properties. *)
Lemma Route_dereferences_properties_witness :
  StandardRouter.Route Fixtures.standard_router
    (map_to_list (StandardRouter.subscriptions Fixtures.standard_router))
    (Fixtures.publish_without_properties "specific/topic") []
  = inl NilPointerDereference ∧
  StandardRouter.Route Fixtures.standard_router
    (map_to_list (StandardRouter.subscriptions Fixtures.standard_router))
    (Fixtures.publish "specific/topic" None) []
  ≠ inl NilPointerDereference.
Proof.
  split.
  - apply (Route_dereferences_properties Fixtures.standard_router
             Fixtures.context_router _ [] _ []).
    reflexivity.
  - apply (Route_dereferences_properties Fixtures.standard_router
             Fixtures.context_router _ [] _ []).
    discriminate.
Defined.

(** [Test_DefaultHandler] and [Test_Middleware_WithDefaultHandler]: on
    the router with a handler on [specific/topic] and a default handler, a
    message on [specific/topic] reaches the handler and not the default
    handler, and a message on an unmatched topic reaches the default
    handler only; so does a message on [specific/topic] when the handler
    list of that filter is empty.  In the context-aware router the default
    handler runs inside the two middlewares. *)
Lemma default_handler_runs_iff_nothing_else_ran_witness :
  (∃ r' out,
     StandardRouter.Route Fixtures.standard_router
       (map_to_list (StandardRouter.subscriptions Fixtures.standard_router))
       (Fixtures.publish "specific/topic" None) [] = inr (r', out) ∧
     Registered "specific/topic" (Fixtures.marking_message_handler "handler")
       ∈ calls (final out) ∧
     (∀ d, Default d ∉ calls (final out)) ∧
     world (final out) = ["handler"]) ∧
  (∃ r' out d,
     StandardRouter.Route Fixtures.standard_router
       (map_to_list (StandardRouter.subscriptions Fixtures.standard_router))
       (Fixtures.publish "unmatched/topic" None) [] = inr (r', out) ∧
     calls (final out) = [Default d] ∧
     world (final out) = ["default"]) ∧
  (∃ r' out d,
     StandardRouter.Route Fixtures.empty_list_router
       (map_to_list (StandardRouter.subscriptions Fixtures.empty_list_router))
       (Fixtures.publish "specific/topic" None) [] = inr (r', out) ∧
     calls (final out) = [Default d] ∧
     world (final out) = ["default"]) ∧
  (∃ r' out d,
     ContextRouter.Route Fixtures.context_router
       (map_to_list (ContextRouter.subscriptions Fixtures.context_router))
       (Fixtures.publish "unmatched/topic" None) [] = inr (r', out) ∧
     calls (final out) = [Default d] ∧
     world (final out)
     = ["m1-before"; "m2-before"; "default"; "m2-after"; "m1-after"]).
Proof.
  destruct (@default_handler_runs_iff_nothing_else_ran (list string))
    as (_ & Hstandard & Hcontext).
  split; [|split; [|split]].
  - destruct (StandardRouter.Route _ _ _ _) as [fault|[r' out]] eqn:Hroute;
      [by vm_compute in Hroute|].
    destruct (Hstandard _ _ _ _ _ _ (reflexivity _) Hroute)
      as (Hreg & Hiff & _ & _ & Hworld).
    vm_compute in Hroute. injection Hroute as <- <-.
    pose proof (proj2 (Hreg "specific/topic"
                         (Fixtures.marking_message_handler "handler")))
      as Hcalled.
    lapply Hcalled; [clear Hcalled; intros Hin|].
    2: { exists [Fixtures.marking_message_handler "handler"].
         split; [reflexivity|]. split; [by left|reflexivity]. }
    do 2 eexists. split; [reflexivity|]. split; [exact Hin|]. split.
    + intros d Hd. apply (proj1 (Hiff d)) in Hd as [_ Hnone].
      exact (Hnone _ _ Hin).
    + rewrite Hworld. reflexivity.
  - destruct (StandardRouter.Route _ _ _ _) as [fault|[r' out]] eqn:Hroute;
      [by vm_compute in Hroute|].
    destruct (Hstandard _ _ _ _ _ _ (reflexivity _) Hroute)
      as (_ & _ & Hdefault & Honly & _).
    vm_compute in Hroute. injection Hroute as <- <-.
    edestruct Honly as [Hcalls Hworld].
    { apply (proj2 (Hdefault (Fixtures.marking_message_handler "default"))).
      split; [reflexivity|]. intros route handlers Hlookup Hmatch.
      change (StandardRouter.subscriptions Fixtures.standard_router)
        with (<["specific/topic" := [Fixtures.marking_message_handler "handler"]]>
                (∅ : gmap string (list (StandardRouter.MessageHandler (list string)))))
        in Hlookup.
      apply lookup_insert_Some in Hlookup as [[<- _]|[_ Hlookup]];
        [|by rewrite lookup_empty in Hlookup].
      by vm_compute in Hmatch. }
    do 3 eexists. split; [reflexivity|]. split; [exact Hcalls|].
    rewrite Hworld. reflexivity.
  - destruct (StandardRouter.Route _ _ _ _) as [fault|[r' out]] eqn:Hroute;
      [by vm_compute in Hroute|].
    destruct (Hstandard _ _ _ _ _ _ (reflexivity _) Hroute)
      as (_ & _ & Hdefault & Honly & _).
    vm_compute in Hroute. injection Hroute as <- <-.
    edestruct Honly as [Hcalls Hworld].
    { apply (proj2 (Hdefault (Fixtures.marking_message_handler "default"))).
      split; [reflexivity|]. intros route handlers Hlookup Hmatch.
      change (StandardRouter.subscriptions Fixtures.empty_list_router)
        with (<["specific/topic" := []]>
                (∅ : gmap string (list (StandardRouter.MessageHandler (list string)))))
        in Hlookup.
      apply lookup_insert_Some in Hlookup as [[_ <-]|[_ Hlookup]];
        [done|by rewrite lookup_empty in Hlookup]. }
    do 3 eexists. split; [reflexivity|]. split; [exact Hcalls|].
    rewrite Hworld. reflexivity.
  - destruct (ContextRouter.Route _ _ _ _) as [fault|[r' out]] eqn:Hroute;
      [by vm_compute in Hroute|].
    destruct (Hcontext _ _ _ _ _ _ _ (reflexivity _) Hroute)
      as (_ & _ & _ & Honly & _).
    vm_compute in Hroute. injection Hroute as <- <-.
    edestruct Honly as [Hcalls Hworld]; [by left|].
    do 3 eexists. split; [reflexivity|]. split; [exact Hcalls|].
    rewrite Hworld. reflexivity.
Defined.


(** [Test_TopicAlias]: [x/y] with alias 1, then the empty topic with
    alias 1, on the router with a handler on [x/y]; the second dispatch
    starts from the world the first one left.  The handler has run once
    after the first message and twice after the second. *)
Lemma topic_alias_resolution_witness :
  ∃ r1 out1 r2 out2,
    StandardRouter.Route Fixtures.alias_router
      (map_to_list (StandardRouter.subscriptions Fixtures.alias_router))
      (Fixtures.publish "x/y" (Some 1)) [] = inr (r1, out1) ∧
    StandardRouter.Route r1
      (map_to_list (StandardRouter.subscriptions Fixtures.alias_router))
      (Fixtures.publish "" (Some 1)) ["handler"] = inr (r2, out2) ∧
    topic out1 = "x/y" ∧ topic out2 = "x/y" ∧
    Registered "x/y" (Fixtures.marking_message_handler "handler")
      ∈ calls (final out2) ∧
    world (final out1) = ["handler"] ∧
    world (final out2) = ["handler"; "handler"].
Proof.
  destruct (@topic_alias_resolution (list string)) as (_ & Hstandard & _).
  destruct (Hstandard Fixtures.alias_router
              (map_to_list (StandardRouter.subscriptions Fixtures.alias_router))
              (map_to_list (StandardRouter.subscriptions Fixtures.alias_router))
              (Fixtures.publish "x/y" (Some 1)) (Fixtures.publish "" (Some 1))
              [] ["handler"]
              {| packets.TopicAlias := Some 1 |}
              {| packets.TopicAlias := Some 1 |} 1 "x/y"
              [Fixtures.marking_message_handler "handler"]
              (Fixtures.marking_message_handler "handler"))
    as (r1 & out1 & r2 & out2 & Hroute1 & Hroute2 & _ & Hout1 & Hout2 & _
        & Hcall & Hfire1 & Hfire2).
  - unfold iteration_of. reflexivity.
  - unfold iteration_of. reflexivity.
  - reflexivity.
  - reflexivity.
  - discriminate.
  - reflexivity.
  - reflexivity.
  - reflexivity.
  - reflexivity.
  - by left.
  - reflexivity.
  - intros route handlers Hlookup.
    change (StandardRouter.subscriptions Fixtures.alias_router)
      with (<["x/y" := [Fixtures.marking_message_handler "handler"]]>
              (∅ : gmap string (list (StandardRouter.MessageHandler _))))
      in Hlookup.
    apply lookup_insert_Some in Hlookup as [[<- _]|[_ Hlookup]];
      [|by rewrite lookup_empty in Hlookup].
    by exists ["x"; "y"].
  - destruct Hfire1 as (before1 & after1 & Hcalls1 & Hworld1 & _).
    destruct Hfire2 as (before2 & after2 & Hcalls2 & Hworld2 & _).
    exists r1, out1, r2, out2.
    split; [exact Hroute1|]. split; [exact Hroute2|].
    split; [exact Hout1|]. split; [exact Hout2|]. split; [exact Hcall|].
    vm_compute in Hroute1. injection Hroute1 as <- <-.
    vm_compute in Hroute2. injection Hroute2 as <- <-.
    apply (f_equal length) in Hcalls1, Hcalls2.
    rewrite length_app in Hcalls1, Hcalls2.
    destruct before1, after1; simpl in Hcalls1; try lia.
    destruct before2, after2; simpl in Hcalls2; try lia.
    split; [exact Hworld1|exact Hworld2].
Defined.

End RouterFacts.


(** ** Middleware *)

Module MiddlewareFacts.
Import Go Dispatch ContextRouter.

Section Facts.
Context {W : Type}.
Implicit Types (r : Router W) (h : Handler W) (mws : list (Middleware W)).

Lemma nested_app mws1 mws2 h :
  nested (mws1 ++ mws2) h = nested mws1 (nested mws2 h).
Proof. induction mws1 as [|m1 mws1 IH]; simpl; by rewrite ?IH. Qed.

(** The loop, having wrapped the middlewares at the indices from [n] up,
    wraps those below [n] around the result. *)
Lemma wrapHandler_loop_nested mws (n : nat) : ∀ h,
  (n ≤ length mws)%nat ->
  wrapHandler_loop mws n h = nested (take n mws) h.
Proof.
  induction n as [|i IH]; intros h Hn; [done|].
  destruct (lookup_lt_is_Some_2 mws i) as [mw Hmw]; [lia|].
  cbn [wrapHandler_loop]. unfold Middleware in *. rewrite Hmw, IH by lia.
  by rewrite (take_S_r _ _ _ Hmw), nested_app.
Qed.

Lemma wrapHandler_nested r h : wrapHandler r h = nested (middlewares r) h.
Proof.
  unfold wrapHandler. case_decide as Hlen.
  - by apply nil_length_inv in Hlen as ->.
  - by rewrite wrapHandler_loop_nested, firstn_all.
Qed.

End Facts.

(** C7.  For middlewares registered in the order [m1, m2, ..., mn] the
    handler called at dispatch is [m1(m2(... mn(h) ...))]: [Use] appends,
    and [wrapHandler] wraps from the last one inwards, so the first one
    registered is outermost; with none registered the handler is called as
    it is.  On the router of [Test_Middleware_MultipleMiddleware] one
    dispatch leaves the marks [m1-before, m2-before, handler, m2-after,
    m1-after], in this order. *)
Theorem wrapHandler_first_registered_is_outermost :
  (∀ W (r : Router W) h, wrapHandler r h = nested (middlewares r) h) ∧
  (∀ W (r : Router W) h, middlewares r = [] -> wrapHandler r h = h) ∧
  (∀ W (r : Router W) m1 mws h,
     middlewares r = m1 :: mws -> wrapHandler r h = m1 (nested mws h)) ∧
  (∀ W (r : Router W) ms1 ms2,
     middlewares (Use (Use r ms1) ms2) = middlewares r ++ ms1 ++ ms2) ∧
  (∀ W m1 m2 (h : Handler W),
     wrapHandler (Use (Use NewRouter [m1]) [m2]) h = m1 (m2 h)) ∧
  (∃ r' out,
     Route Fixtures.context_router
       (map_to_list (subscriptions Fixtures.context_router))
       (Fixtures.publish "test/topic" None) [] = inr (r', out) ∧
     world (final out)
     = ["m1-before"; "m2-before"; "handler"; "m2-after"; "m1-after"]).
Proof.
  split; [intros W r h; apply wrapHandler_nested|].
  split; [by intros W r h Hnone; rewrite wrapHandler_nested, Hnone|].
  split; [by intros W r m1 mws h Hmws; rewrite wrapHandler_nested, Hmws|].
  split; [by intros W r ms1 ms2; simpl; rewrite <- app_assoc|].
  split; [by intros W m1 m2 h; rewrite wrapHandler_nested|].
  destruct (Route _ _ _ _) as [fault|[r' out]] eqn:Hroute;
    [by vm_compute in Hroute|].
  vm_compute in Hroute. injection Hroute as <- <-.
  by do 2 eexists.
Qed.

(** The two middlewares of the test around its handler. *)
Lemma wrapHandler_first_registered_is_outermost_witness :
  wrapHandler Fixtures.context_router (Fixtures.marking_handler "handler")
    Background (paho.PublishFromPacketPublish (Fixtures.publish "t" None)) []
  = ["m1-before"; "m2-before"; "handler"; "m2-after"; "m1-after"] ∧
  wrapHandler (ContextRouter.NewRouter (W := list string))
    (Fixtures.marking_handler "handler")
  = Fixtures.marking_handler "handler".
Proof.
  destruct wrapHandler_first_registered_is_outermost
    as (_ & Hnone & Hcons & _).
  split.
  - rewrite (Hcons _ Fixtures.context_router (Fixtures.marking_middleware "m1")
               [Fixtures.marking_middleware "m2"]); reflexivity.
  - apply Hnone. reflexivity.
Defined.

End MiddlewareFacts.


(** ** Locking *)

Module LockingFacts.
Import Dispatch Locking.

(** [Route] stores into the alias map exactly when the alias step of the
    dispatch does: the message has properties, an alias and a non-empty
    topic name. *)
Lemma Route_ops_store pb alias :
  Store (AliasEntry alias) ∈ Route_ops pb ↔
  ∃ props, packets.Properties_ pb = Some props ∧
           packets.TopicAlias props = Some alias ∧ packets.Topic pb ≠ "".
Proof.
  unfold Route_ops.
  destruct (packets.Properties_ pb) as [props|];
    [destruct (packets.TopicAlias props) as [alias'|] eqn:Halias;
       [case_decide as Htopic|]|];
    simpl; rewrite ?elem_of_cons, elem_of_nil;
    (split; [intros Hin; decompose [or] Hin; simplify_eq; try done; eauto
            |intros (props' & Hprops & Halias' & Hne); simplify_eq; eauto]).
Qed.

(** The operations of a [Route] that stores an alias. *)
Lemma Route_ops_aliasing pb props alias :
  packets.Properties_ pb = Some props ->
  packets.TopicAlias props = Some alias ->
  packets.Topic pb ≠ "" ->
  Route_ops pb
  = [RLock; Store (AliasEntry alias); Load (AliasEntry alias);
     Load Subscriptions; Load Middlewares; Load DefaultHandlerField; RUnlock].
Proof.
  intros Hprops Halias Htopic. unfold Route_ops.
  rewrite Hprops, Halias. by rewrite decide_True.
Qed.

(** The store into the alias map is made with the lock held in shared
    mode, and in no other mode. *)
Lemma alias_store_held_shared pb props alias mode :
  packets.Properties_ pb = Some props ->
  packets.TopicAlias props = Some alias ->
  packets.Topic pb ≠ "" ->
  (Store (AliasEntry alias), mode) ∈ held_at NotHeld (Route_ops pb) ↔
  mode = Shared.
Proof.
  intros Hprops Halias Htopic.
  rewrite (Route_ops_aliasing pb props alias Hprops Halias Htopic). simpl.
  split.
  - intros Hin.
    repeat (apply elem_of_cons in Hin as [Heq|Hin]; [by simplify_eq|]).
    by inversion Hin.
  - intros ->. right. by left.
Qed.

(** Two dispatches of messages that carry the same alias and non-empty
    topic names can both be about to store into the same alias entry. *)
Lemma concurrent_alias_stores_race pb1 pb2 props1 props2 alias :
  packets.Properties_ pb1 = Some props1 ->
  packets.TopicAlias props1 = Some alias ->
  packets.Topic pb1 ≠ "" ->
  packets.Properties_ pb2 = Some props2 ->
  packets.TopicAlias props2 = Some alias ->
  packets.Topic pb2 ≠ "" ->
  ∃ c, rtc step (unlocked, [Route_ops pb1; Route_ops pb2]) c ∧ race c.
Proof.
  intros Hprops1 Halias1 Htopic1 Hprops2 Halias2 Htopic2.
  rewrite (Route_ops_aliasing pb1 props1 alias Hprops1 Halias1 Htopic1).
  rewrite (Route_ops_aliasing pb2 props2 alias Hprops2 Halias2 Htopic2).
  eexists. split.
  - eapply rtc_l; [by eapply (step_goroutine _ _ 0%nat)|].
    eapply rtc_l; [by eapply (step_goroutine _ _ 1%nat)|].
    apply rtc_refl.
  - exists 0%nat, 1%nat. do 4 eexists. by repeat split.
Qed.

(** [successors] lists the steps. *)
Lemma step_successors c c' : step c c' ↔ c' ∈ successors c.
Proof.
  unfold successors. rewrite list_elem_of_omap. split.
  - intros [mu goroutines i op rest Hi Hop]. exists i. simpl. split.
    + apply elem_of_seq. apply lookup_lt_Some in Hi. lia.
    + by rewrite Hi, Hop.
  - intros (i & _ & Hc'). destruct c as [mu goroutines]. simpl in Hc'.
    destruct (goroutines !! i) as [[|op rest]|] eqn:Hi; try done.
    destruct (enabled mu op) eqn:Hop; [|done].
    injection Hc' as <-. by constructor.
Qed.

(** Every configuration reached from a closed set is in the set. *)
Lemma closed_reachable cs c0 c :
  closed cs = true -> c0 ∈ cs -> rtc step c0 c -> c ∈ cs.
Proof.
  intros Hclosed Hc0 Hsteps.
  induction Hsteps as [c|c c1 c2 Hstep _ IH]; [done|].
  apply IH. unfold closed in Hclosed.
  rewrite forallb_forall in Hclosed.
  apply list_elem_of_In, Hclosed in Hc0.
  rewrite forallb_forall in Hc0.
  apply step_successors, list_elem_of_In, Hc0 in Hstep.
  by apply bool_decide_eq_true in Hstep.
Qed.

(** The lock does its work where it is taken exclusively: two goroutines
    registering handlers never race, and neither do a goroutine registering
    a handler and one dispatching a message without alias. *)
Lemma registrations_never_race c :
  rtc step (unlocked, [RegisterHandler_ops; RegisterHandler_ops]) c ->
  ¬ race c.
Proof.
  intros Hsteps.
  apply (closed_reachable
           (explore 8 [(unlocked, [RegisterHandler_ops; RegisterHandler_ops])]))
    in Hsteps; [|by vm_compute|vm_compute; by left].
  vm_compute in Hsteps.
  intros (i & j & a & rest_i & b & rest_j & Hij & Hi & Hj & Hconflict).
  repeat (apply elem_of_cons in Hsteps as [->|Hsteps];
          [destruct i as [|[|i]], j as [|[|j]];
           simpl in *; simplify_eq; simpl in *; done|]).
  by inversion Hsteps.
Qed.

Lemma registration_and_dispatch_never_race c :
  rtc step (unlocked,
            [RegisterHandler_ops; Route_ops (Fixtures.publish "x/y" None)]) c ->
  ¬ race c.
Proof.
  intros Hsteps.
  apply (closed_reachable
           (explore 10
              [(unlocked,
                [RegisterHandler_ops;
                 Route_ops (Fixtures.publish "x/y" None)])]))
    in Hsteps; [|by vm_compute|vm_compute; by left].
  vm_compute in Hsteps.
  intros (i & j & a & rest_i & b & rest_j & Hij & Hi & Hj & Hconflict).
  repeat (apply elem_of_cons in Hsteps as [->|Hsteps];
          [destruct i as [|[|i]], j as [|[|j]];
           simpl in *; simplify_eq; simpl in *; done|]).
  by inversion Hsteps.
Qed.

(** C4.  Two dispatches, of [x/y] and of [x/z] under the alias 1.  Each
    stores into the alias map while it holds the router's lock in shared
    mode only, never in exclusive mode, whereas [RegisterHandler] stores
    into the subscriptions with the lock held exclusively; and the two
    dispatches can both be about to store into the entry of alias 1 at
    once. *)
Theorem alias_store_under_shared_lock_races :
  let pb1 := Fixtures.publish "x/y" (Some 1) in
  let pb2 := Fixtures.publish "x/z" (Some 1) in
  (Store (AliasEntry 1), Shared) ∈ held_at NotHeld (Route_ops pb1) ∧
  ¬ ((Store (AliasEntry 1), Exclusive) ∈ held_at NotHeld (Route_ops pb1)) ∧
  (Store Subscriptions, Exclusive) ∈ held_at NotHeld RegisterHandler_ops ∧
  fst (resolve_topic ∅ {| packets.TopicAlias := Some 1 |} pb1
         (paho.PublishFromPacketPublish pb1)) !! 1 = Some "x/y" ∧
  ∃ c, rtc step (unlocked, [Route_ops pb1; Route_ops pb2]) c ∧ race c.
Proof.
  intros pb1 pb2.
  split; [by eapply alias_store_held_shared|].
  split; [by intros Hin; eapply alias_store_held_shared in Hin|].
  split; [right; right; by left|].
  split; [reflexivity|].
  by eapply concurrent_alias_stores_race.
Qed.

End LockingFacts.


(** * Further properties *)

(** ** The packet-identifier service: [Get], [Free], [Clear], sequences *)

Module MIDsMore.
Import MIDs MIDsFacts.

Section Facts.
Context {CPContext : Type}.
Implicit Types (m : MIDs CPContext) (c : CPContext) (i j k : Z).

(** X1.  After a successful [Request], [Get] of the returned identifier
    gives the waiter, the identifier is the last one issued, and [Get] of
    every other identifier gives what it gave before. *)
Theorem Request_then_Get m c m' i :
  wf m -> Request m c = (m', (i, None)) ->
  Get m' i = Some c ∧ lastIdUsed m' = i ∧
  ∀ j, j ≠ i -> Get m' j = Get m j.
Proof.
  intros Hwf Hreq. unfold Get.
  destruct (Request_success m c m' i Hwf Hreq) as (_ & _ & Hidx & _).
  rewrite Hidx. split; [apply lookup_insert_eq|]. split.
  - destruct (Request_cases m c Hwf)
      as [[_ E]|[(k & _ & _ & _ & _ & E)|(_ & _ & E)]];
      rewrite E in Hreq; by simplify_eq.
  - intros j Hne. by apply lookup_insert_ne.
Qed.

(** X2.  [Request] followed by [Free] of the returned identifier leaves
    the associations exactly as they were before the [Request]; only the
    last identifier issued has moved on. *)
Theorem Request_then_Free m c m' i :
  wf m -> Request m c = (m', (i, None)) ->
  index (Free m' i) = index m ∧ lastIdUsed (Free m' i) = i.
Proof.
  intros Hwf Hreq.
  destruct (Request_success m c m' i Hwf Hreq) as (_ & Hfree & Hidx & _).
  destruct (Request_then_Get m c m' i Hwf Hreq) as (_ & Hlast & _).
  unfold Free. simpl. rewrite Hidx. split; [by apply delete_insert_id|done].
Qed.

(** A successful [Request] never returns the identifier issued last. *)
Lemma Request_moves_on m c m' k :
  wf m -> Request m c = (m', (k, None)) -> k ≠ lastIdUsed m.
Proof.
  intros Hwf Hreq. unfold wf, uint16 in Hwf.
  destruct (Request_cases m c Hwf)
    as [[_ E]|[(k' & _ & Hk & _ & _ & E)|(_ & _ & E)]];
    rewrite E in Hreq; simplify_eq; unfold next_id in *; case_decide; lia.
Qed.

(** X3.  An identifier that was issued and freed at once is not the one
    the next [Request] returns. *)
Theorem freed_identifier_not_reissued_next m c c' m1 m2 i k :
  wf m -> Request m c = (m1, (i, None)) ->
  Request (Free m1 i) c' = (m2, (k, None)) ->
  k ≠ i.
Proof.
  intros Hwf Hreq1 Hreq2.
  destruct (Request_then_Free m c m1 i Hwf Hreq1) as [_ Hlast].
  destruct (Request_success m c m1 i Hwf Hreq1) as (Hi & _ & _ & _).
  rewrite <- Hlast.
  apply (Request_moves_on (Free m1 i) c' m2 k); [|done].
  unfold wf, uint16. rewrite Hlast. lia.
Qed.

(** X4.  After [Clear] no identifier resolves to a waiter; the position
    is kept, so the next [Request] succeeds and returns the identifier after
    the last one issued, not 1. *)
Theorem Clear_then_Request m c :
  wf m ->
  (∀ i, Get (Clear m) i = None) ∧
  Request (Clear m) c
  = ({| index := {[ next_id m := c ]}; lastIdUsed := next_id m |},
     (next_id m, None)).
Proof.
  intros Hwf. split; [intros i; apply lookup_empty|].
  destruct (Request_cases (Clear m) c Hwf)
    as [[_ E]|[(k & [x Hx] & _)|([x Hx] & _)]].
  - rewrite E. change (next_id (Clear m)) with (next_id m).
    simpl. by rewrite insert_empty.
  - change (index (Clear m)) with (∅ : gmap Z CPContext) in Hx.
    by rewrite lookup_empty in Hx.
  - change (index (Clear m)) with (∅ : gmap Z CPContext) in Hx.
    by rewrite lookup_empty in Hx.
Qed.

(** Sequential requests on a service whose identifiers in use are exactly
    1 to [k], [k] being the last one issued. *)
Lemma RequestAll_from_prefix cs : ∀ m k m' rs,
  lastIdUsed m = k -> 0 <= k ->
  (∀ j, in_use m j ↔ 1 <= j <= k) ->
  k + Z.of_nat (length cs) <= 65535 ->
  RequestAll m cs = (m', rs) ->
  rs = (λ i, (i, None)) <$> seqZ (k + 1) (Z.of_nat (length cs)) ∧
  lastIdUsed m' = k + Z.of_nat (length cs) ∧
  (∀ j, in_use m' j ↔ 1 <= j <= k + Z.of_nat (length cs)).
Proof.
  induction cs as [|c cs IH]; intros m k m' rs Hlast Hk Huse Hlen Hall;
    simpl in Hall.
  - simplify_eq. simpl. rewrite Z.add_0_r. by repeat split; apply Huse.
  - destruct (Request m c) as [m1 r] eqn:Hreq.
    destruct (RequestAll m1 cs) as [m2 rs'] eqn:Hrest. simplify_eq.
    simpl length in *.
    assert (Hwf : wf m) by (unfold wf, uint16; lia).
    assert (Hnext : next_id m = lastIdUsed m + 1)
      by (unfold next_id; case_decide; lia).
    destruct (Request_cases m c Hwf)
      as [[Hfree E]|[(i & Hin & _)|(Hin & _)]].
    + rewrite E in Hreq. simplify_eq. rewrite Hnext in *.
      destruct (IH (mkMIDs (<[lastIdUsed m + 1 := c]> (index m))
                      (lastIdUsed m + 1))
                  (lastIdUsed m + 1) m' rs' eq_refl) as (Hrs & Hl & Hu);
        [lia| |lia|exact Hrest|].
      * intros j. unfold in_use in *. simpl.
        destruct (decide (j = lastIdUsed m + 1)) as [->|Hne].
        -- rewrite lookup_insert_eq. split; [lia|by eexists].
        -- rewrite lookup_insert_ne by done. rewrite Huse. lia.
      * rewrite seqZ_cons by lia. simpl. rewrite Hrs.
        replace (Z.succ (lastIdUsed m + 1)) with (lastIdUsed m + 1 + 1) by lia.
        replace (Z.pred (Z.of_nat (S (length cs))))
          with (Z.of_nat (length cs)) by lia.
        split; [done|]. split; [lia|].
        intros j. rewrite Hu. lia.
    + apply Huse in Hin. lia.
    + apply Huse in Hin. lia.
Qed.

(** X5.  On the service as created, up to 65535 sequential requests all
    succeed and return 1, 2, 3, ... in this order. *)
Theorem fresh_requests_count_up (cs : list CPContext) :
  Z.of_nat (length cs) <= 65535 ->
  (RequestAll fresh cs).2 = (λ i, (i, None)) <$> seqZ 1 (Z.of_nat (length cs)).
Proof.
  intros Hlen. destruct (RequestAll fresh cs) as [m' rs] eqn:Hall.
  destruct (RequestAll_from_prefix cs fresh 0 m' rs) as (Hrs & _); try done.
  intros j. unfold in_use, fresh. simpl. rewrite lookup_empty.
  split; [by intros [? ?]|lia].
Qed.

(** X6.  With all 65535 identifiers outstanding the next [Request] fails
    with [ErrNoMoreIDs], returns 0 and associates nothing. *)
Theorem fresh_requests_exhaust (cs : list CPContext) c :
  Z.of_nat (length cs) = 65535 ->
  let m := (RequestAll fresh cs).1 in
  (Request m c).2 = (0, Some ErrNoMoreIDs) ∧
  index (Request m c).1 = index m ∧
  ∀ j, 1 <= j <= 65535 -> in_use m j.
Proof.
  intros Hlen m. subst m.
  destruct (RequestAll fresh cs) as [m' rs] eqn:Hall. simpl.
  destruct (RequestAll_from_prefix cs fresh 0 m' rs) as (_ & Hlast & Huse);
    try done; [|lia|].
  { intros j. unfold in_use, fresh. simpl. rewrite lookup_empty.
    split; [by intros [? ?]|lia]. }
  rewrite Hlen in Hlast, Huse. simpl in Hlast, Huse.
  assert (Hwf : wf m') by (unfold wf, uint16; lia).
  destruct (Request_cases m' c Hwf)
    as [[Hfree E]|[(k & _ & Hk & Hfree & _ & E)|(_ & _ & E)]].
  - assert (in_use m' (next_id m')) as [x Hx]; [|congruence].
    apply Huse. pose proof (next_id_range m' Hwf). lia.
  - assert (in_use m' k) as [x Hx]; [|congruence].
    apply Huse. pose proof (next_id_range m' Hwf). lia.
  - rewrite E. simpl. split; [done|]. split; [done|].
    intros j Hj. by apply Huse.
Qed.

(** X7.  [Request] fails exactly when the identifier after the last one
    issued and every identifier above it up to 65534 are in use.  A failed
    [Request] returns 0, leaves every association as it was, and still
    moves the last identifier issued one step. *)
Theorem Request_fails_iff_upper_range_in_use m c :
  wf m ->
  ((Request m c).2.2 = Some ErrNoMoreIDs ↔
   ∀ j, next_id m <= j < 65535 ∨ j = next_id m -> in_use m j) ∧
  ((Request m c).2.2 = Some ErrNoMoreIDs ->
   (Request m c).2.1 = 0 ∧
   index (Request m c).1 = index m ∧
   lastIdUsed (Request m c).1 = next_id m).
Proof.
  intros Hwf. split; [by apply Request_failure_iff|].
  destruct (Request_cases m c Hwf)
    as [[_ E]|[(k & _ & _ & _ & _ & E)|(_ & _ & E)]]; by rewrite E.
Qed.

(** X8.  In every state the service can reach, the last identifier issued
    is a [uint16] and the identifiers in use lie in [1, 65535]: 0 is never
    associated with a waiter. *)
Theorem reachable_identifiers_in_range m :
  reachable m ->
  wf m ∧ ∀ j, in_use m j -> 1 <= j <= 65535.
Proof.
  induction 1 as [|m c _ [Hwf IH]|m i _ _ [Hwf IH]|m _ [Hwf IH]].
  - split; [unfold wf, uint16; simpl; lia|].
    intros j [x Hx]. simpl in Hx. by rewrite lookup_empty in Hx.
  - pose proof (next_id_range m Hwf) as Hn.
    destruct (Request_cases m c Hwf)
      as [[_ E]|[(k & _ & Hk & _ & _ & E)|(_ & _ & E)]];
      rewrite E; simpl; (split; [unfold wf, uint16; simpl; lia|]);
      unfold in_use; simpl; intros j Hj; try by apply IH.
    + destruct (decide (next_id m = j)) as [<-|Hne]; [lia|].
      rewrite lookup_insert_ne in Hj by done. by apply IH.
    + destruct (decide (k = j)) as [<-|Hne]; [lia|].
      rewrite lookup_insert_ne in Hj by done. by apply IH.
  - split; [done|]. unfold in_use. simpl. intros j Hj. apply IH.
    destruct (decide (i = j)) as [->|Hne].
    + rewrite lookup_delete_eq in Hj. by destruct Hj.
    + by rewrite lookup_delete_ne in Hj.
  - split; [done|]. unfold in_use. simpl. intros j [x Hx].
    by rewrite lookup_empty in Hx.
Qed.

End Facts.

Lemma Request_then_Get_witness :
  Get (Request (@fresh string) "waiter").1 1 = Some "waiter" ∧
  lastIdUsed (Request (@fresh string) "waiter").1 = 1.
Proof.
  destruct (Request_then_Get (@fresh string) "waiter"
              (Request (@fresh string) "waiter").1 1) as (Hget & Hlast & _).
  - unfold wf, uint16. simpl. lia.
  - reflexivity.
  - by split.
Defined.

Lemma Request_then_Free_witness :
  index (Free (Request (@fresh string) "b").1 1) = index (@fresh string).
Proof.
  destruct (Request_then_Free (@fresh string) "b"
              (Request (@fresh string) "b").1 1) as [Hidx _].
  - unfold wf, uint16. simpl. lia.
  - reflexivity.
  - exact Hidx.
Defined.

Lemma freed_identifier_not_reissued_next_witness :
  (Request (Free (Request (@fresh string) "a").1 1) "b").2.1 ≠ 1.
Proof.
  apply (freed_identifier_not_reissued_next (@fresh string) "a" "b"
           (Request (@fresh string) "a").1
           (Request (Free (Request (@fresh string) "a").1 1) "b").1).
  - unfold wf, uint16. simpl. lia.
  - reflexivity.
  - reflexivity.
Defined.

Lemma Clear_then_Request_witness :
  (Request (Clear (Fixtures.one_outstanding "a")) "b").2 = (65535, None) ∧
  Get (Clear (Fixtures.one_outstanding "a")) 65535 = None.
Proof.
  destruct (Clear_then_Request (Fixtures.one_outstanding "a") "b")
    as [Hget Hreq].
  - unfold wf, uint16. simpl. lia.
  - split; [by rewrite Hreq|apply Hget].
Defined.

Lemma fresh_requests_count_up_witness :
  (RequestAll (@fresh string) ["a"; "b"; "c"]).2
  = [(1, None); (2, None); (3, None)].
Proof.
  rewrite (fresh_requests_count_up ["a"; "b"; "c"]).
  - reflexivity.
  - simpl. lia.
Defined.

Lemma fresh_requests_exhaust_witness :
  (Request (RequestAll (@fresh unit) (replicate (Z.to_nat 65535) ())).1 ()).2
  = (0, Some ErrNoMoreIDs).
Proof.
  apply (fresh_requests_exhaust (replicate (Z.to_nat 65535) ()) ()).
  rewrite length_replicate. lia.
Defined.

Lemma Request_fails_iff_upper_range_in_use_witness :
  (Request (Fixtures.one_outstanding "a") "b").2.1 = 0 ∧
  lastIdUsed (Request (Fixtures.one_outstanding "a") "b").1 = 65535.
Proof.
  destruct (Request_fails_iff_upper_range_in_use
              (Fixtures.one_outstanding "a") "b") as [_ Hfail].
  - unfold wf, uint16. simpl. lia.
  - destruct Hfail as (Hzero & _ & Hlast); [reflexivity|]. by split.
Defined.

Lemma reachable_identifiers_in_range_witness :
  wf (Request (@fresh string) "a").1 ∧
  ¬ in_use (Request (@fresh string) "a").1 0.
Proof.
  destruct (reachable_identifiers_in_range (Request (@fresh string) "a").1)
    as [Hwf Hrange].
  - apply reachable_Request, reachable_fresh.
  - split; [exact Hwf|]. intros Hin. apply Hrange in Hin. lia.
Defined.

End MIDsMore.


(** ** The topic matcher: splitting, wildcards, shared filters *)

Module MatcherMore.
Import Go Matcher MatcherFacts.

Lemma Split_nonempty s sep : Split s sep ≠ [].
Proof.
  destruct s as [|c s]; simpl; [done|].
  destruct (Ascii.eqb c sep); [done|]. by destruct (Split s sep).
Qed.

Lemma Join_cons piece pieces sep :
  pieces ≠ [] ->
  Join (piece :: pieces) sep = piece +:+ String sep (Join pieces sep).
Proof. by destruct pieces. Qed.

Lemma Join_Split s sep : Join (Split s sep) sep = s.
Proof.
  induction s as [|c s IH]; simpl; [done|].
  destruct (Ascii.eqb c sep) eqn:Hc.
  - apply Ascii.eqb_eq in Hc as ->.
    rewrite Join_cons by apply Split_nonempty. simpl. by rewrite IH.
  - pose proof (Split_nonempty s sep) as Hne.
    destruct (Split s sep) as [|piece pieces]; [done|].
    destruct pieces as [|piece' pieces]; simpl in *; [by rewrite IH|].
    by rewrite <- IH.
Qed.

Lemma Split_length s sep : length (Split s sep) = S (Count s sep).
Proof.
  induction s as [|c s IH]; simpl; [done|].
  destruct (Ascii.eqb c sep); simpl; [by rewrite IH|].
  pose proof (Split_nonempty s sep) as Hne.
  by destruct (Split s sep).
Qed.

Lemma Split_pieces s sep :
  Forall (λ piece, Count piece sep = 0%nat) (Split s sep).
Proof.
  induction s as [|c s IH]; simpl; [by repeat constructor|].
  destruct (Ascii.eqb c sep) eqn:Hc; [by constructor|].
  pose proof (Split_nonempty s sep) as Hne.
  destruct (Split s sep) as [|piece pieces]; [done|].
  apply Forall_cons in IH as [Hpiece Hpieces].
  constructor; [|done]. simpl. by rewrite Hc.
Qed.

Lemma Split_single s sep : Count s sep = 0%nat -> Split s sep = [s].
Proof.
  induction s as [|c s IH]; simpl; [done|].
  destruct (Ascii.eqb c sep); [done|]. simpl. intros Hs. by rewrite IH.
Qed.

Lemma Split_app s1 s2 sep :
  Split (s1 +:+ String sep s2) sep = Split s1 sep ++ Split s2 sep.
Proof.
  induction s1 as [|c s1 IH]; simpl.
  - by rewrite Ascii.eqb_refl.
  - rewrite IH. destruct (Ascii.eqb c sep); [done|].
    pose proof (Split_nonempty s1 sep) as Hne.
    by destruct (Split s1 sep).
Qed.

Lemma Join_levels s : Join (levels s) "/" = s.
Proof. destruct s; [done|]. apply Join_Split. Qed.

Lemma levels_length s :
  s ≠ "" -> length (levels s) = S (Count s "/").
Proof. destruct s; [done|]. intros _. apply Split_length. Qed.

(** X9.  [topicSplit] loses nothing: the levels joined by ['/'] are the
    topic again; no level contains a ['/']; a non-empty topic has one level
    more than it has ['/'], and the empty topic has none. *)
Theorem topicSplit_round_trip topic :
  Join (topicSplit topic) "/" = topic ∧
  Forall (λ level, Count level "/" = 0%nat) (topicSplit topic) ∧
  length (topicSplit topic)
  = (if decide (topic = "") then 0 else S (Count topic "/"))%nat.
Proof.
  rewrite topicSplit_levels. split; [apply Join_levels|].
  destruct topic as [|c topic]; [by repeat constructor|].
  split; [apply Split_pieces|].
  rewrite decide_False by done. apply Split_length.
Qed.

(** A filter of literal levels matches a level sequence exactly when the
    two are equal. *)
Lemma matchDeep_literal route : ∀ topic,
  Forall literal_level route ->
  matchDeep route topic = true ↔ route = topic.
Proof.
  induction route as [|route0 route' IH]; intros topic Hlit; simpl.
  - destruct topic; simpl; [done|]. split; [done|discriminate].
  - apply Forall_cons in Hlit as [[Hplus Hhash] Hlit].
    apply String.eqb_neq in Hplus, Hhash. rewrite Hhash.
    destruct topic as [|topic0 topic']; [split; [done|discriminate]|].
    rewrite Hplus. simpl.
    destruct (String.eqb route0 topic0) eqn:Heq.
    + apply String.eqb_eq in Heq as ->. rewrite (IH topic' Hlit).
      split; [by intros ->|by intros [= ->]].
    + apply String.eqb_neq in Heq. split; [done|]. by intros [= -> _].
Qed.

(** X10.  A filter without wildcard level and without shared-subscription
    prefix matches exactly one topic, the one with the same text. *)
Theorem literal_filter_matches_only_itself route topic :
  HasPrefix route "$share" = false ->
  Forall literal_level (levels route) ->
  match_ route topic = inr (bool_decide (route = topic)).
Proof.
  intros Hshare Hlit. rewrite (match_levels route topic Hshare). f_equal.
  case_bool_decide as Heq.
  - subst. apply matchDeep_refl.
  - apply not_true_is_false. rewrite (matchDeep_literal _ _ Hlit).
    intros Hlevels. apply Heq.
    by rewrite <- (Join_levels route), Hlevels, Join_levels.
Qed.

Lemma matchDeep_hash_suffix route : ∀ rest,
  matchDeep (route ++ ["#"]) (route ++ rest) = true.
Proof.
  induction route as [|route0 route' IH]; intros rest; simpl.
  - by destruct rest.
  - destruct (String.eqb route0 "#"); [done|].
    by rewrite String.eqb_refl, orb_true_r.
Qed.

Lemma levels_app s1 s2 :
  levels (s1 +:+ String "/" s2) = Split s1 "/" ++ Split s2 "/".
Proof.
  unfold levels. rewrite <- Split_app. by destruct s1.
Qed.

(** X11.  A filter [f/#], [f] not empty, matches the topic [f] itself and
    every topic [f/t] below it. *)
Theorem hash_filter_matches_parent_and_below f t :
  f ≠ "" ->
  HasPrefix (f +:+ "/#") "$share" = false ->
  match_ (f +:+ "/#") f = inr true ∧
  match_ (f +:+ "/#") (f +:+ String "/" t) = inr true.
Proof.
  intros Hf Hshare.
  rewrite !(match_levels _ _ Hshare). rewrite !levels_app.
  change (Split "#" "/") with ["#"].
  split; f_equal.
  - destruct f as [|c f]; [done|].
    rewrite <- (app_nil_r (levels (String c f))).
    apply (matchDeep_hash_suffix (Split (String c f) "/") []).
  - apply matchDeep_hash_suffix.
Qed.

Lemma matchDeep_same_length route : ∀ topic,
  "#" ∉ route -> matchDeep route topic = true ->
  length route = length topic.
Proof.
  induction route as [|route0 route' IH]; intros topic Hhash; simpl.
  - by destruct topic.
  - apply not_elem_of_cons in Hhash as [Hne Hhash].
    assert (String.eqb route0 "#" = false) as -> by (by apply String.eqb_neq).
    destruct topic as [|topic0 topic']; [done|].
    destruct (String.eqb route0 "+" || String.eqb route0 topic0); [|done].
    intros Hrest. simpl. f_equal. by apply IH.
Qed.

(** X12.  A filter with no ["#"] level (and no shared-subscription
    prefix) matches only topics with as many levels as it has: ["+"]
    stands for exactly one level.  In particular the topic then has as
    many ['/'] as the filter. *)
Theorem filter_without_hash_fixes_depth route topic :
  HasPrefix route "$share" = false ->
  "#" ∉ levels route ->
  match_ route topic = inr true ->
  length (levels route) = length (levels topic) ∧
  Count route "/" = Count topic "/".
Proof.
  intros Hshare Hhash Hmatch.
  rewrite (match_levels route topic Hshare) in Hmatch.
  injection Hmatch as Hmatch.
  apply matchDeep_same_length in Hmatch; [|done]. split; [done|].
  destruct route as [|c route], topic as [|c' topic]; [done| | |].
  - unfold levels in Hmatch. by rewrite Split_length in Hmatch.
  - unfold levels in Hmatch. by rewrite Split_length in Hmatch.
  - rewrite !levels_length in Hmatch by done. lia.
Qed.

(** [routeSplit] of a shared filter [$share/group/f]. *)
Lemma routeSplit_shared group f :
  Count group "/" = 0%nat ->
  routeSplit ("$share/" +:+ group +:+ String "/" f) = inr (Split f "/").
Proof.
  intros Hgroup. unfold routeSplit.
  rewrite decide_False by done.
  change (HasPrefix ("$share/" +:+ group +:+ String "/" f) "$share") with true.
  cbv iota.
  change ("$share/" +:+ group +:+ String "/" f)
    with ("$share" +:+ String "/" (group +:+ String "/" f)).
  rewrite !Split_app, (Split_single group) by done.
  change (Split "$share" "/") with ["$share"]. simpl.
  unfold slice_from. rewrite decide_True by (simpl; lia). done.
Qed.

(** X13.  Shared subscriptions in general: for a group name without
    ['/'] and a non-empty filter [f] that is not itself shared,
    [$share/group/f] gives the verdict of [f] on every topic other than the
    text of the shared filter. *)
Theorem shared_filter_matches_like_its_filter group f topic :
  Count group "/" = 0%nat ->
  f ≠ "" ->
  HasPrefix f "$share" = false ->
  topic ≠ "$share/" +:+ group +:+ String "/" f ->
  match_ ("$share/" +:+ group +:+ String "/" f) topic = match_ f topic.
Proof.
  intros Hgroup Hf Hshare Hne.
  rewrite (match_levels f topic Hshare).
  unfold match_ at 1, routeIncludesTopic.
  assert (String.eqb ("$share/" +:+ group +:+ String "/" f) topic = false)
    as -> by (by apply String.eqb_neq).
  rewrite (routeSplit_shared group f Hgroup), topicSplit_levels. simpl.
  by destruct f.
Qed.

(** When [routeSplit] panics. *)
Lemma routeSplit_panics_iff route :
  routeSplit route = inl SliceBoundsOutOfRange ↔
  HasPrefix route "$share" = true ∧ Count route "/" = 0%nat.
Proof.
  unfold routeSplit, slice_from. rewrite Split_length.
  destruct (decide (String.length route = 0%nat)) as [Hlen|Hlen].
  - apply length_zero_empty in Hlen as ->. split; [done|by intros [? _]].
  - destruct (HasPrefix route "$share"); [|split; [done|by intros [? _]]].
    case_decide; split; try done.
    + intros [_ Hcount]. lia.
    + intros _. split; [done|lia].
Qed.

(** X14.  [match] panics, with a slice bound out of range, exactly on a
    filter that begins with [$share], contains no ['/'] and differs from
    the topic; on every other pair it returns a verdict. *)
Theorem match_panics_iff route topic :
  (match_ route topic = inl SliceBoundsOutOfRange ↔
   route ≠ topic ∧ HasPrefix route "$share" = true ∧
   Count route "/" = 0%nat) ∧
  (match_ route topic ≠ inl NilPointerDereference).
Proof.
  split.
  - rewrite <- routeSplit_panics_iff. unfold match_, routeIncludesTopic.
    destruct (String.eqb route topic) eqn:Heq.
    + apply String.eqb_eq in Heq. split; [done|]. by intros [? _].
    + apply String.eqb_neq in Heq.
      destruct (routeSplit route) as [fault|route_levels] eqn:Hsplit; simpl.
      * apply routeSplit_fault in Hsplit as ->. by split.
      * split; [done|]. by intros [_ ?].
  - intros Hmatch. by apply match_fault in Hmatch.
Qed.

Lemma literal_filter_matches_only_itself_witness :
  match_ "sensors/temp" "sensors/temp" = inr true ∧
  match_ "sensors/temp" "sensors/humidity" = inr false.
Proof.
  split.
  - rewrite (literal_filter_matches_only_itself "sensors/temp" "sensors/temp");
      [reflexivity|reflexivity|].
    repeat constructor; discriminate.
  - rewrite (literal_filter_matches_only_itself "sensors/temp"
               "sensors/humidity"); [reflexivity|reflexivity|].
    repeat constructor; discriminate.
Defined.

Lemma hash_filter_matches_parent_and_below_witness :
  match_ "test/#" "test" = inr true ∧
  match_ "test/#" "test/topic/nested" = inr true.
Proof.
  apply (hash_filter_matches_parent_and_below "test" "topic/nested").
  - discriminate.
  - reflexivity.
Defined.

Lemma filter_without_hash_fixes_depth_witness :
  Count "test/+/status" "/" = Count "test/temp/status" "/".
Proof.
  apply (filter_without_hash_fixes_depth "test/+/status" "test/temp/status").
  - reflexivity.
  - intros Hin. repeat (apply elem_of_cons in Hin as [Heq|Hin]; [done|]).
    by inversion Hin.
  - reflexivity.
Defined.

Lemma shared_filter_matches_like_its_filter_witness :
  match_ "$share/group/test/+" "test/topic" = match_ "test/+" "test/topic".
Proof.
  apply (shared_filter_matches_like_its_filter "group" "test/+" "test/topic").
  - reflexivity.
  - discriminate.
  - reflexivity.
  - discriminate.
Defined.

End MatcherMore.

(** ** Dispatch: order, completeness and independence of the scan *)

Module DispatchMore.
Import Go Matcher Dispatch DispatchFacts.

Section Facts.
Context {H W : Type} (invoke : H -> W -> W).
Implicit Types (s : State H W) (entries : list (string * list H)).

Lemma calls_of_app route (cs1 cs2 : list (Call H)) :
  calls_of route (cs1 ++ cs2) = calls_of route cs1 ++ calls_of route cs2.
Proof. apply filter_app. Qed.

Lemma calls_of_registered_same route (handlers : list H) :
  calls_of route (Registered route <$> handlers) = Registered route <$> handlers.
Proof.
  induction handlers as [|h handlers IH]; [done|].
  unfold calls_of. rewrite fmap_cons, filter_cons_True by done.
  f_equal. apply IH.
Qed.

Lemma calls_of_registered_other route route' (handlers : list H) :
  route' ≠ route ->
  calls_of route (Registered route' <$> handlers) = [].
Proof.
  intros Hne. induction handlers as [|h handlers IH]; [done|].
  unfold calls_of. rewrite fmap_cons, filter_cons_False; [apply IH|].
  simpl. by intros [= ?].
Qed.

Lemma calls_of_matched_absent route entries topic :
  route ∉ entries.*1 ->
  calls_of route (matched_calls (H := H) entries topic) = [].
Proof.
  induction entries as [|[route' handlers] entries IH]; intros Hnot; [done|].
  simpl in *. apply not_elem_of_cons in Hnot as [Hne Hnot].
  destruct (match_ route' topic) as [fault|[|]]; try by apply IH.
  rewrite calls_of_app, calls_of_registered_other by done.
  by apply IH.
Qed.

(** The calls the scan makes for one filter: its handlers, in their order
    in the list, when the filter matches; none otherwise. *)
Lemma calls_of_matched route handlers entries topic :
  NoDup entries.*1 -> (route, handlers) ∈ entries ->
  calls_of route (matched_calls entries topic)
  = match match_ route topic with
    | inr true => Registered route <$> handlers
    | _ => []
    end.
Proof.
  induction entries as [|[route' handlers'] entries IH]; intros Hnd Hin;
    [by inversion Hin|].
  simpl in *. apply NoDup_cons in Hnd as [Hfresh Hnd].
  apply elem_of_cons in Hin as [Heq|Hin].
  - simplify_eq.
    destruct (match_ route' topic) as [fault|[|]];
      rewrite ?calls_of_app, ?calls_of_registered_same,
        (calls_of_matched_absent route' entries topic Hfresh);
      by rewrite ?app_nil_r.
  - assert (route' ≠ route) as Hne.
    { intros ->. apply Hfresh. apply list_elem_of_fmap.
      by exists (route, handlers). }
    destruct (match_ route' topic) as [fault|[|]];
      rewrite ?calls_of_app, ?calls_of_registered_other by done;
      by apply IH.
Qed.

Lemma matched_calls_app entries1 entries2 topic :
  matched_calls (H := H) (entries1 ++ entries2) topic
  = matched_calls entries1 topic ++ matched_calls entries2 topic.
Proof.
  induction entries1 as [|[route handlers] entries1 IH]; [done|].
  simpl. destruct (match_ route topic) as [fault|[|]]; try done.
  by rewrite IH, app_assoc.
Qed.

(** Another order of the entries gives the same calls in another order. *)
Lemma matched_calls_Permutation entries1 entries2 topic :
  entries1 ≡ₚ entries2 ->
  matched_calls (H := H) entries1 topic ≡ₚ matched_calls entries2 topic.
Proof.
  induction 1 as [|[route handlers] entries1 entries2 _ IH
                  |[route handlers] [route' handlers'] entries
                  |entries1 entries2 entries3 _ IH1 _ IH2]; simpl.
  - done.
  - destruct (match_ route topic) as [fault|[|]]; by rewrite ?IH.
  - destruct (match_ route topic) as [fault|[|]],
      (match_ route' topic) as [fault'|[|]]; try done.
    rewrite !app_assoc. f_equiv. apply Permutation_app_comm.
  - by etrans.
Qed.

(** Whether the scan returns depends on the filters, not on their order
    or on the handlers. *)
Lemma range_subscriptions_returns_iff topic entries : ∀ s,
  (∃ s', range_subscriptions invoke entries topic s = inr s') ↔
  ∀ route handlers, (route, handlers) ∈ entries ->
                    ∃ matched, match_ route topic = inr matched.
Proof.
  induction entries as [|[route handlers] entries IH]; intros s; simpl.
  - split; [|by eexists]. intros _ route handlers Hin. by inversion Hin.
  - destruct (match_ route topic) as [fault|matched] eqn:Hmatch; simpl.
    + split; [by intros [s' ?]|]. intros Hall.
      destruct (Hall route handlers) as [matched Hm]; [by left|].
      congruence.
    + rewrite IH. split.
      * intros Hall route' handlers' Hin.
        apply elem_of_cons in Hin as [Heq|Hin]; [|by eapply Hall].
        simplify_eq. by eexists.
      * intros Hall route' handlers' Hin. apply (Hall route' handlers').
        by right.
Qed.

(** A dispatch seen through another iteration order. *)
Lemma dispatch_order_independent topic entries1 entries2
    (defaultHandler : option H) w s1 :
  entries1 ≡ₚ entries2 ->
  range_subscriptions invoke entries1 topic (start w) = inr s1 ->
  ∃ s2, range_subscriptions invoke entries2 topic (start w) = inr s2 ∧
        calls (call_default invoke defaultHandler s1)
        ≡ₚ calls (call_default invoke defaultHandler s2).
Proof.
  intros Hperm Hscan1.
  destruct (proj2 (range_subscriptions_returns_iff topic entries2 (start w)))
    as [s2 Hscan2].
  { intros route handlers Hin. rewrite <- Hperm in Hin.
    by eapply (proj1 (range_subscriptions_returns_iff topic entries1 (start w)));
      [eexists|]. }
  exists s2. split; [done|].
  destruct (dispatch_spec invoke topic entries1 defaultHandler w s1 Hscan1)
    as [-> _].
  destruct (dispatch_spec invoke topic entries2 defaultHandler w s2 Hscan2)
    as [-> _].
  pose proof (matched_calls_Permutation entries1 entries2 topic Hperm) as Hm.
  destruct defaultHandler as [d|]; [|by rewrite Hm].
  destruct (matched_calls entries1 topic) as [|c1 cs1] eqn:H1,
    (matched_calls entries2 topic) as [|c2 cs2] eqn:H2.
  - done.
  - by apply Permutation_nil_l in Hm.
  - by apply Permutation_nil_r in Hm.
  - by rewrite Hm.
Qed.

(** A filter on which [match] panics makes the scan panic. *)
Lemma range_subscriptions_panics topic entries route handlers fault : ∀ s,
  (route, handlers) ∈ entries -> match_ route topic = inl fault ->
  range_subscriptions invoke entries topic s = inl SliceBoundsOutOfRange.
Proof.
  intros s Hin Hmatch.
  destruct (range_subscriptions invoke entries topic s) as [fault'|s'] eqn:Hscan.
  - by apply range_subscriptions_fault in Hscan as ->.
  - destruct (proj1 (range_subscriptions_returns_iff topic entries s))
      with route handlers as [matched Hm]; [by eexists|done|congruence].
Qed.

(** A dispatch without default handler. *)
Lemma dispatch_without_default topic entries w s :
  range_subscriptions invoke entries topic (start w) = inr s ->
  let s' := call_default invoke None s in
  (∀ h, Default h ∉ calls s') ∧
  ((∀ route handlers, (route, handlers) ∈ entries ->
      match_ route topic = inr false) ->
   calls s' = [] ∧ world s' = w).
Proof.
  intros Hscan s'.
  destruct (dispatch_spec invoke topic entries None w s Hscan)
    as [Hcalls Hworld]. fold s' in Hcalls, Hworld.
  destruct (default_call_iff invoke topic entries None w s Hscan)
    as [Hiff _]. fold s' in Hiff.
  split.
  - intros h Hin. by apply Hiff in Hin as [? _].
  - intros Hnone. rewrite Hworld, Hcalls.
    by rewrite (matched_calls_none _ _ Hnone).
Qed.

End Facts.
End DispatchMore.

(** ** The routers: registration, unregistration, defaults, aliases *)

Module RouterMore.
Import Go Matcher Dispatch DispatchFacts DispatchMore RouterFacts MatcherMore.

Lemma iteration_of_NoDup {H : Type} (subscriptions : gmap string (list H))
    entries :
  iteration_of subscriptions entries -> NoDup entries.*1.
Proof.
  unfold iteration_of. intros ->. apply NoDup_fst_map_to_list.
Qed.

Lemma calls_of_default_part {H : Type} route (defaultHandler : option H)
    (matched : list (Call H)) :
  calls_of route
    match defaultHandler, matched with
    | Some d, [] => [Default d]
    | _, _ => []
    end = [].
Proof. by destruct defaultHandler, matched. Qed.

Section Facts.
Context {W : Type}.

(** When the [Route] of StandardRouter returns. *)
Lemma Route_returns_iff (r : StandardRouter.StandardRouter W) entries pb w :
  (∃ r' out, StandardRouter.Route r entries pb w = inr (r', out)) ↔
  ∃ props, packets.Properties_ pb = Some props ∧
    ∀ route handlers, (route, handlers) ∈ entries ->
      ∃ matched,
        match_ route
          (resolve_topic (StandardRouter.aliases r) props pb
             (paho.PublishFromPacketPublish pb)).2 = inr matched.
Proof.
  split.
  - intros (r' & out & Hroute).
    apply Route_inv in Hroute as (props & s & Hprops & _ & Htopic & Hscan & _).
    exists props. split; [done|]. rewrite <- Htopic.
    eapply (proj1 (range_subscriptions_returns_iff _ _ _ _)). by eexists.
  - intros (props & Hprops & Hall).
    unfold StandardRouter.Route. rewrite Hprops. simpl.
    destruct (resolve_topic _ _ _ _) as [aliases' topic']. simpl in Hall.
    match goal with
    | |- context [range_subscriptions ?invoke entries topic' (start w)] =>
        destruct (proj2 (range_subscriptions_returns_iff invoke topic' entries
                           (start w)) Hall) as [s Hscan]
    end.
    rewrite Hscan. simpl. by do 2 eexists.
Qed.

(** With properties present, the only panic of [Route] is the slice
    expression of [routeSplit]. *)
Lemma Route_fault (r : StandardRouter.StandardRouter W) entries pb w props fault :
  packets.Properties_ pb = Some props ->
  StandardRouter.Route r entries pb w = inl fault ->
  fault = SliceBoundsOutOfRange.
Proof.
  intros Hprops Hroute.
  unfold StandardRouter.Route in Hroute. rewrite Hprops in Hroute.
  simpl in Hroute.
  destruct (resolve_topic _ _ _ _) as [aliases' topic'].
  destruct_scan Hroute as s Hscan; simpl in Hroute; [|done].
  apply range_subscriptions_fault in Hscan. congruence.
Qed.

(** When the [Route] of ContextRouter returns. *)
Lemma route_in_returns_iff ctx (r : ContextRouter.Router W) entries pb w :
  (∃ r' out, ContextRouter.route_in ctx r entries pb w = inr (r', out)) ↔
  ∃ props, packets.Properties_ pb = Some props ∧
    ∀ route handlers, (route, handlers) ∈ entries ->
      ∃ matched,
        match_ route
          (resolve_topic (ContextRouter.aliases r) props pb
             (paho.PublishFromPacketPublish pb)).2 = inr matched.
Proof.
  split.
  - intros (r' & out & Hroute).
    apply route_in_inv in Hroute as (props & s & Hprops & _ & Htopic & Hscan & _).
    exists props. split; [done|]. rewrite <- Htopic.
    eapply (proj1 (range_subscriptions_returns_iff _ _ _ _)). by eexists.
  - intros (props & Hprops & Hall).
    unfold ContextRouter.route_in. rewrite Hprops. simpl.
    destruct (resolve_topic _ _ _ _) as [aliases' topic']. simpl in Hall.
    match goal with
    | |- context [range_subscriptions ?invoke entries topic' (start w)] =>
        destruct (proj2 (range_subscriptions_returns_iff invoke topic' entries
                           (start w)) Hall) as [s Hscan]
    end.
    rewrite Hscan. simpl. by do 2 eexists.
Qed.

(** With properties present, the only panic of [Route] is the slice
    expression of [routeSplit]. *)
Lemma route_in_fault ctx (r : ContextRouter.Router W) entries pb w props fault :
  packets.Properties_ pb = Some props ->
  ContextRouter.route_in ctx r entries pb w = inl fault ->
  fault = SliceBoundsOutOfRange.
Proof.
  intros Hprops Hroute.
  unfold ContextRouter.route_in in Hroute. rewrite Hprops in Hroute.
  simpl in Hroute.
  destruct (resolve_topic _ _ _ _) as [aliases' topic'].
  destruct_scan Hroute as s Hscan; simpl in Hroute; [|done].
  apply range_subscriptions_fault in Hscan. congruence.
Qed.

(** X15.  In a dispatch that returns, the calls made for a registered filter
    are: every handler in its list, once each and in the order of the list,
    when the filter matches the effective topic; none when it does not.
    This holds whatever order the map iteration takes. *)
Theorem handlers_called_in_registration_order :
  (∀ (r : StandardRouter.StandardRouter W) entries pb w r' out route handlers,
     iteration_of (StandardRouter.subscriptions r) entries ->
     StandardRouter.Route r entries pb w = inr (r', out) ->
     StandardRouter.subscriptions r !! route = Some handlers ->
     calls_of route (calls (final out))
     = match match_ route (topic out) with
       | inr true => Registered route <$> handlers
       | _ => []
       end) ∧
  (∀ ctx (r : ContextRouter.Router W) entries pb w r' out route handlers,
     iteration_of (ContextRouter.subscriptions r) entries ->
     ContextRouter.route_in ctx r entries pb w = inr (r', out) ->
     ContextRouter.subscriptions r !! route = Some handlers ->
     calls_of route (calls (final out))
     = match match_ route (topic out) with
       | inr true => Registered route <$> handlers
       | _ => []
       end).
Proof.
  split.
  - intros r entries pb w r' out route handlers Hiter Hroute Hlookup.
    apply Route_inv in Hroute as (props & s & _ & _ & _ & Hscan & ->).
    destruct (dispatch_spec _ _ _ (StandardRouter.defaultHandler r) _ _ Hscan)
      as [Hcalls _].
    etrans; [exact (f_equal (calls_of route) Hcalls)|].
    rewrite calls_of_app, calls_of_default_part, app_nil_r.
    apply calls_of_matched; [by eapply iteration_of_NoDup|].
    by apply (iteration_of_elem _ _ _ _ Hiter).
  - intros ctx r entries pb w r' out route handlers Hiter Hroute Hlookup.
    apply route_in_inv in Hroute as (props & s & _ & _ & _ & Hscan & ->).
    destruct (dispatch_spec _ _ _ (ContextRouter.defaultHandler r) _ _ Hscan)
      as [Hcalls _].
    etrans; [exact (f_equal (calls_of route) Hcalls)|].
    rewrite calls_of_app, calls_of_default_part, app_nil_r.
    apply calls_of_matched; [by eapply iteration_of_NoDup|].
    by apply (iteration_of_elem _ _ _ _ Hiter).
Qed.

(** X16.  Registering [h1] and then [h2] under the same filter appends them
    to the handlers already there: a dispatch of a matching topic calls the
    earlier handlers, then [h1], then [h2]. *)
Theorem handlers_registered_twice_both_called :
  (∀ (r : StandardRouter.StandardRouter W) f h1 h2 entries pb w r' out,
     let r2 := StandardRouter.RegisterHandler (StandardRouter.RegisterHandler r f h1) f h2 in
     iteration_of (StandardRouter.subscriptions r2) entries ->
     StandardRouter.Route r2 entries pb w = inr (r', out) ->
     match_ f (topic out) = inr true ->
     calls_of f (calls (final out))
     = Registered f
         <$> (default [] (StandardRouter.subscriptions r !! f) ++ [h1; h2])) ∧
  (∀ ctx (r : ContextRouter.Router W) f h1 h2 entries pb w r' out,
     let r2 := ContextRouter.RegisterHandler (ContextRouter.RegisterHandler r f h1) f h2 in
     iteration_of (ContextRouter.subscriptions r2) entries ->
     ContextRouter.route_in ctx r2 entries pb w = inr (r', out) ->
     match_ f (topic out) = inr true ->
     calls_of f (calls (final out))
     = Registered f
         <$> (default [] (ContextRouter.subscriptions r !! f) ++ [h1; h2])).
Proof.
  split.
  - intros r f h1 h2 entries pb w r' out r2 Hiter Hroute Hmatch.
    assert (Hlookup : StandardRouter.subscriptions r2 !! f
              = Some (default [] (StandardRouter.subscriptions r !! f) ++ [h1; h2])).
    { subst r2. simpl. rewrite !lookup_insert_eq. simpl.
      by rewrite <- app_assoc. }
    apply Route_inv in Hroute as (props & s & _ & _ & _ & Hscan & ->).
    destruct (dispatch_spec _ _ _ (StandardRouter.defaultHandler r2) _ _ Hscan)
      as [Hcalls _].
    etrans; [exact (f_equal (calls_of f) Hcalls)|].
    rewrite calls_of_app, calls_of_default_part, app_nil_r.
    rewrite (calls_of_matched f _ entries (topic out)
               (iteration_of_NoDup _ _ Hiter)
               (proj2 (iteration_of_elem _ _ _ _ Hiter) Hlookup)).
    by rewrite Hmatch.
  - intros ctx r f h1 h2 entries pb w r' out r2 Hiter Hroute Hmatch.
    assert (Hlookup : ContextRouter.subscriptions r2 !! f
              = Some (default [] (ContextRouter.subscriptions r !! f) ++ [h1; h2])).
    { subst r2. simpl. rewrite !lookup_insert_eq. simpl.
      by rewrite <- app_assoc. }
    apply route_in_inv in Hroute as (props & s & _ & _ & _ & Hscan & ->).
    destruct (dispatch_spec _ _ _ (ContextRouter.defaultHandler r2) _ _ Hscan)
      as [Hcalls _].
    etrans; [exact (f_equal (calls_of f) Hcalls)|].
    rewrite calls_of_app, calls_of_default_part, app_nil_r.
    rewrite (calls_of_matched f _ entries (topic out)
               (iteration_of_NoDup _ _ Hiter)
               (proj2 (iteration_of_elem _ _ _ _ Hiter) Hlookup)).
    by rewrite Hmatch.
Qed.

(** X17.  After [UnregisterHandler] of a filter no handler is called for that
    filter, whatever the message; the handlers of every other filter stay
    registered; and unregistering a filter that is not registered changes
    nothing. *)
Theorem unregistered_filter_is_never_called :
  (∀ (r : StandardRouter.StandardRouter W) f entries pb w r' out,
     let r1 := StandardRouter.UnregisterHandler r f in
     iteration_of (StandardRouter.subscriptions r1) entries ->
     StandardRouter.Route r1 entries pb w = inr (r', out) ->
     calls_of f (calls (final out)) = [] ∧
     (∀ g, g ≠ f ->
        StandardRouter.subscriptions r1 !! g = StandardRouter.subscriptions r !! g) ∧
     (StandardRouter.subscriptions r !! f = None -> r1 = r)) ∧
  (∀ ctx (r : ContextRouter.Router W) f entries pb w r' out,
     let r1 := ContextRouter.UnregisterHandler r f in
     iteration_of (ContextRouter.subscriptions r1) entries ->
     ContextRouter.route_in ctx r1 entries pb w = inr (r', out) ->
     calls_of f (calls (final out)) = [] ∧
     (∀ g, g ≠ f ->
        ContextRouter.subscriptions r1 !! g = ContextRouter.subscriptions r !! g) ∧
     (ContextRouter.subscriptions r !! f = None -> r1 = r)).
Proof.
  split.
  - intros r f entries pb w r' out r1 Hiter Hroute.
    split; [|split].
    + apply Route_inv in Hroute as (props & s & _ & _ & _ & Hscan & ->).
      destruct (dispatch_spec _ _ _ (StandardRouter.defaultHandler r1) _ _ Hscan)
        as [Hcalls _].
      etrans; [exact (f_equal (calls_of f) Hcalls)|].
      rewrite calls_of_app, calls_of_default_part, app_nil_r.
      apply calls_of_matched_absent. intros Hin.
      apply list_elem_of_fmap in Hin as ([f' handlers] & -> & Hin).
      apply (iteration_of_elem _ _ _ _ Hiter) in Hin. subst r1. simpl in Hin.
      by rewrite lookup_delete_eq in Hin.
    + intros g Hne. subst r1. simpl. by apply lookup_delete_ne.
    + intros Hnone. subst r1. unfold StandardRouter.UnregisterHandler.
      rewrite delete_id by done. by destruct r.
  - intros ctx r f entries pb w r' out r1 Hiter Hroute.
    split; [|split].
    + apply route_in_inv in Hroute as (props & s & _ & _ & _ & Hscan & ->).
      destruct (dispatch_spec _ _ _ (ContextRouter.defaultHandler r1) _ _ Hscan)
        as [Hcalls _].
      etrans; [exact (f_equal (calls_of f) Hcalls)|].
      rewrite calls_of_app, calls_of_default_part, app_nil_r.
      apply calls_of_matched_absent. intros Hin.
      apply list_elem_of_fmap in Hin as ([f' handlers] & -> & Hin).
      apply (iteration_of_elem _ _ _ _ Hiter) in Hin. subst r1. simpl in Hin.
      by rewrite lookup_delete_eq in Hin.
    + intros g Hne. subst r1. simpl. by apply lookup_delete_ne.
    + intros Hnone. subst r1. unfold ContextRouter.UnregisterHandler.
      rewrite delete_id by done. by destruct r.
Qed.

(** X18.  After [DefaultHandler(nil)] no dispatch calls a default handler,
    and a dispatch of a message that no filter matches calls nothing and
    leaves the world as it was. *)
Theorem cleared_default_handler_is_not_called :
  (∀ (r : StandardRouter.StandardRouter W) entries pb w r' out,
     let r1 := StandardRouter.DefaultHandler r None in
     StandardRouter.Route r1 entries pb w = inr (r', out) ->
     (∀ h, Default h ∉ calls (final out)) ∧
     ((∀ route handlers, (route, handlers) ∈ entries ->
         match_ route (topic out) = inr false) ->
      calls (final out) = [] ∧ world (final out) = w)) ∧
  (∀ ctx (r : ContextRouter.Router W) entries pb w r' out,
     let r1 := ContextRouter.DefaultHandler r None in
     ContextRouter.route_in ctx r1 entries pb w = inr (r', out) ->
     (∀ h, Default h ∉ calls (final out)) ∧
     ((∀ route handlers, (route, handlers) ∈ entries ->
         match_ route (topic out) = inr false) ->
      calls (final out) = [] ∧ world (final out) = w)).
Proof.
  split.
  - intros r entries pb w r' out r1 Hroute.
    apply Route_inv in Hroute as (props & s & _ & _ & _ & Hscan & ->).
    exact (dispatch_without_default _ _ _ _ _ Hscan).
  - intros ctx r entries pb w r' out r1 Hroute.
    apply route_in_inv in Hroute as (props & s & _ & _ & _ & Hscan & ->).
    exact (dispatch_without_default _ _ _ _ _ Hscan).
Qed.

(** X19.  [Route] changes nothing of a router but its alias cache, never
    removes an alias from the cache, and never stores an empty topic in it.
    So, with a cache built by dispatches, the effective topic of a message
    that carries an alias is empty only if the message has no topic name and
    its alias is unknown. *)
Theorem alias_cache_never_holds_empty_topic :
  (∀ (r : StandardRouter.StandardRouter W) entries pb w r' out,
     StandardRouter.Route r entries pb w = inr (r', out) ->
     (∀ alias t, StandardRouter.aliases r !! alias = Some t -> t ≠ "") ->
     StandardRouter.subscriptions r' = StandardRouter.subscriptions r ∧
     StandardRouter.defaultHandler r' = StandardRouter.defaultHandler r ∧
     dom (StandardRouter.aliases r) ⊆ dom (StandardRouter.aliases r') ∧
     (∀ alias t, StandardRouter.aliases r' !! alias = Some t -> t ≠ "") ∧
     (∀ props alias,
        packets.Properties_ pb = Some props ->
        packets.TopicAlias props = Some alias ->
        (topic out = "" ↔
         packets.Topic pb = "" ∧ StandardRouter.aliases r !! alias = None))) ∧
  (∀ ctx (r : ContextRouter.Router W) entries pb w r' out,
     ContextRouter.route_in ctx r entries pb w = inr (r', out) ->
     (∀ alias t, ContextRouter.aliases r !! alias = Some t -> t ≠ "") ->
     ContextRouter.subscriptions r' = ContextRouter.subscriptions r ∧
     ContextRouter.defaultHandler r' = ContextRouter.defaultHandler r ∧
     dom (ContextRouter.aliases r) ⊆ dom (ContextRouter.aliases r') ∧
     (∀ alias t, ContextRouter.aliases r' !! alias = Some t -> t ≠ "") ∧
     (∀ props alias,
        packets.Properties_ pb = Some props ->
        packets.TopicAlias props = Some alias ->
        (topic out = "" ↔
         packets.Topic pb = "" ∧ ContextRouter.aliases r !! alias = None))).
Proof.
  split.
  - intros r entries pb w r' out Hroute Hinv.
    apply Route_inv in Hroute as (props & s & Hprops & -> & -> & _). simpl.
    split; [done|]. split; [done|].
    destruct (packets.TopicAlias props) as [alias|] eqn:Halias.
    + rewrite (resolve_topic_alias _ _ _ _ alias Halias).
      case_decide as Htopic; simpl.
      * split; [rewrite dom_insert; set_solver|]. split.
        -- intros alias' t Hlookup.
           apply lookup_insert_Some in Hlookup as [[_ <-]|[_ Hlookup]];
             [done|by eapply Hinv].
        -- intros props' alias' Hprops' Halias'. simplify_eq.
           split; [done|by intros [? _]].
      * split; [done|]. split; [done|].
        intros props' alias' Hprops' Halias'. simplify_eq.
        destruct (StandardRouter.aliases r !! alias) as [t|] eqn:Hlookup; simpl.
        -- split; [intros ->; exfalso; by eapply Hinv|by intros [_ ?]].
        -- done.
    + rewrite (resolve_topic_no_alias _ _ _ _ Halias). simpl.
      split; [done|]. split; [done|].
      intros props' alias' Hprops' Halias'. by simplify_eq.
  - intros ctx r entries pb w r' out Hroute Hinv.
    apply route_in_inv in Hroute as (props & s & Hprops & -> & -> & _). simpl.
    split; [done|]. split; [done|].
    destruct (packets.TopicAlias props) as [alias|] eqn:Halias.
    + rewrite (resolve_topic_alias _ _ _ _ alias Halias).
      case_decide as Htopic; simpl.
      * split; [rewrite dom_insert; set_solver|]. split.
        -- intros alias' t Hlookup.
           apply lookup_insert_Some in Hlookup as [[_ <-]|[_ Hlookup]];
             [done|by eapply Hinv].
        -- intros props' alias' Hprops' Halias'. simplify_eq.
           split; [done|by intros [? _]].
      * split; [done|]. split; [done|].
        intros props' alias' Hprops' Halias'. simplify_eq.
        destruct (ContextRouter.aliases r !! alias) as [t|] eqn:Hlookup; simpl.
        -- split; [intros ->; exfalso; by eapply Hinv|by intros [_ ?]].
        -- done.
    + rewrite (resolve_topic_no_alias _ _ _ _ Halias). simpl.
      split; [done|]. split; [done|].
      intros props' alias' Hprops' Halias'. by simplify_eq.
Qed.

(** X20.  Go ranges over a map in an unspecified order.  If a dispatch
    returns under one order of the subscriptions it returns under every
    other, with the same router afterwards, the same effective topic and
    the same calls up to their order. *)
Theorem dispatch_independent_of_iteration_order :
  (∀ (r : StandardRouter.StandardRouter W) entries1 entries2 pb w r1 out1,
     entries1 ≡ₚ entries2 ->
     StandardRouter.Route r entries1 pb w = inr (r1, out1) ->
     ∃ out2,
       StandardRouter.Route r entries2 pb w = inr (r1, out2) ∧
       topic out2 = topic out1 ∧
       calls (final out1) ≡ₚ calls (final out2)) ∧
  (∀ ctx (r : ContextRouter.Router W) entries1 entries2 pb w r1 out1,
     entries1 ≡ₚ entries2 ->
     ContextRouter.route_in ctx r entries1 pb w = inr (r1, out1) ->
     ∃ out2,
       ContextRouter.route_in ctx r entries2 pb w = inr (r1, out2) ∧
       topic out2 = topic out1 ∧
       calls (final out1) ≡ₚ calls (final out2)).
Proof.
  split.
  - intros r entries1 entries2 pb w r1 out1 Hperm Hroute1.
    destruct (proj2 (Route_returns_iff r entries2 pb w)) as (r2 & out2 & Hroute2).
    { destruct (proj1 (Route_returns_iff r entries1 pb w)) as (props & Hprops & Hall);
        [by do 2 eexists|].
      exists props. split; [done|]. intros route handlers Hin.
      rewrite <- Hperm in Hin. by eapply Hall. }
    pose proof Hroute1 as Hinv1. pose proof Hroute2 as Hinv2.
    apply Route_inv in Hinv1 as (props1 & s1 & Hprops1 & -> & Htopic1 & Hscan1 & Hfinal1).
    apply Route_inv in Hinv2 as (props2 & s2 & Hprops2 & Hr2 & Htopic2 & Hscan2 & Hfinal2).
    rewrite Hprops1 in Hprops2. injection Hprops2 as <-.
    rewrite <- Htopic1 in Htopic2.
    exists out2. rewrite Hr2 in Hroute2. split; [exact Hroute2|].
    split; [done|]. rewrite Hfinal1, Hfinal2.
    destruct (dispatch_order_independent _ _ _ _ (StandardRouter.defaultHandler r)
                _ _ Hperm Hscan1) as (s2' & Hscan2' & Hcalls).
    rewrite Htopic2 in Hscan2.
    assert (Heq : @inr Fault _ s2 = inr s2')
      by (rewrite <- Hscan2; exact Hscan2').
    injection Heq as <-. exact Hcalls.
  - intros ctx r entries1 entries2 pb w r1 out1 Hperm Hroute1.
    destruct (proj2 (route_in_returns_iff ctx r entries2 pb w)) as (r2 & out2 & Hroute2).
    { destruct (proj1 (route_in_returns_iff ctx r entries1 pb w)) as (props & Hprops & Hall);
        [by do 2 eexists|].
      exists props. split; [done|]. intros route handlers Hin.
      rewrite <- Hperm in Hin. by eapply Hall. }
    pose proof Hroute1 as Hinv1. pose proof Hroute2 as Hinv2.
    apply route_in_inv in Hinv1 as (props1 & s1 & Hprops1 & -> & Htopic1 & Hscan1 & Hfinal1).
    apply route_in_inv in Hinv2 as (props2 & s2 & Hprops2 & Hr2 & Htopic2 & Hscan2 & Hfinal2).
    rewrite Hprops1 in Hprops2. injection Hprops2 as <-.
    rewrite <- Htopic1 in Htopic2.
    exists out2. rewrite Hr2 in Hroute2. split; [exact Hroute2|].
    split; [done|]. rewrite Hfinal1, Hfinal2.
    destruct (dispatch_order_independent _ _ _ _ (ContextRouter.defaultHandler r)
                _ _ Hperm Hscan1) as (s2' & Hscan2' & Hcalls).
    rewrite Htopic2 in Hscan2.
    assert (Heq : @inr Fault _ s2 = inr s2')
      by (rewrite <- Hscan2; exact Hscan2').
    injection Heq as <-. exact Hcalls.
Qed.

(** X22.  A registered filter that begins with [$share] and contains no
    ['/'] makes every dispatch of a message without alias panic with a
    slice bound out of range, unless the topic of the message is the text
    of that filter. *)
Theorem unsplittable_shared_filter_makes_Route_panic :
  (∀ (r : StandardRouter.StandardRouter W) entries pb w props route handlers,
     packets.Properties_ pb = Some props ->
     packets.TopicAlias props = None ->
     (route, handlers) ∈ entries ->
     HasPrefix route "$share" = true ->
     Count route "/" = 0%nat ->
     route ≠ packets.Topic pb ->
     StandardRouter.Route r entries pb w = inl SliceBoundsOutOfRange) ∧
  (∀ ctx (r : ContextRouter.Router W) entries pb w props route handlers,
     packets.Properties_ pb = Some props ->
     packets.TopicAlias props = None ->
     (route, handlers) ∈ entries ->
     HasPrefix route "$share" = true ->
     Count route "/" = 0%nat ->
     route ≠ packets.Topic pb ->
     ContextRouter.route_in ctx r entries pb w = inl SliceBoundsOutOfRange).
Proof.
  split.
  - intros r entries pb w props route handlers Hprops Halias Hin Hshare
      Hcount Hne.
    destruct (StandardRouter.Route r entries pb w) as [fault|[r' out]] eqn:Hroute.
    + f_equal. by eapply Route_fault.
    + apply Route_inv in Hroute as (props' & s & Hprops' & _ & Htopic & Hscan & _).
      rewrite Hprops in Hprops'. injection Hprops' as <-.
      rewrite (resolve_topic_no_alias _ _ _ _ Halias) in Htopic.
      simpl in Htopic.
      erewrite range_subscriptions_panics in Hscan; [done|exact Hin|].
      apply (proj1 (match_panics_iff route (topic out))).
      rewrite Htopic. by repeat split.
  - intros ctx r entries pb w props route handlers Hprops Halias Hin Hshare
      Hcount Hne.
    destruct (ContextRouter.route_in ctx r entries pb w) as [fault|[r' out]] eqn:Hroute.
    + f_equal. by eapply route_in_fault.
    + apply route_in_inv in Hroute as (props' & s & Hprops' & _ & Htopic & Hscan & _).
      rewrite Hprops in Hprops'. injection Hprops' as <-.
      rewrite (resolve_topic_no_alias _ _ _ _ Halias) in Htopic.
      simpl in Htopic.
      erewrite range_subscriptions_panics in Hscan; [done|exact Hin|].
      apply (proj1 (match_panics_iff route (topic out))).
      rewrite Htopic. by repeat split.
Qed.

(** X23.  What a dispatch does to the world is what its calls do, one after
    the other in the order they were made; in the context-aware routers
    every called handler, registered or default, runs wrapped by the whole
    middleware chain as it is at the time of the dispatch. *)
Theorem dispatch_effect_is_its_calls_in_order :
  (∀ (r : StandardRouter.StandardRouter W) entries pb w r' out,
     StandardRouter.Route r entries pb w = inr (r', out) ->
     world (final out)
     = foldl (λ w (c : Call (StandardRouter.MessageHandler W)),
                callee c
                  (paho.PublishFromPacketPublish pb) w)
         w (calls (final out))) ∧
  (∀ ctx (r : ContextRouter.Router W) entries pb w r' out,
     ContextRouter.route_in ctx r entries pb w = inr (r', out) ->
     world (final out)
     = foldl (λ w (c : Call (ContextRouter.Handler W)),
                ContextRouter.wrapHandler r (callee c) ctx
                  (paho.PublishFromPacketPublish pb) w)
         w (calls (final out))).
Proof.
  split.
  - intros r entries pb w r' out Hroute.
    apply Route_inv in Hroute as (props & s & _ & _ & _ & Hscan & ->).
    exact (proj2 (dispatch_spec _ _ _ (StandardRouter.defaultHandler r) _ _ Hscan)).
  - intros ctx r entries pb w r' out Hroute.
    apply route_in_inv in Hroute as (props & s & _ & _ & _ & Hscan & ->).
    exact (proj2 (dispatch_spec _ _ _ (ContextRouter.defaultHandler r) _ _ Hscan)).
Qed.

(** X21.  The router of [NewSingleHandlerRouter(h)], as long as no handler
    is registered on it, calls [h] exactly once for every message that has
    properties, with or without alias, and nothing else. *)
Theorem single_handler_router_calls_its_handler
    (h : StandardRouter.MessageHandler W) entries pb w props :
  iteration_of
    (StandardRouter.subscriptions
       (StandardRouter.NewSingleHandlerRouter (Some h))) entries ->
  packets.Properties_ pb = Some props ->
  ∃ r' out,
    StandardRouter.Route (StandardRouter.NewSingleHandlerRouter (Some h))
      entries pb w = inr (r', out) ∧
    calls (final out) = [Default h] ∧
    world (final out) = h (paho.PublishFromPacketPublish pb) w.
Proof.
  intros Hiter Hprops. unfold iteration_of in Hiter. simpl in Hiter.
  rewrite map_to_list_empty in Hiter. apply Permutation_nil_r in Hiter as ->.
  destruct (Route_completes (StandardRouter.NewSingleHandlerRouter (Some h))
              [] pb w props Hprops) as (r' & out & Hroute).
  { intros route handlers Hin. by inversion Hin. }
  exists r', out. split; [done|].
  apply Route_inv in Hroute as (props' & s & _ & _ & _ & Hscan & ->).
  simpl in Hscan. by simplify_eq.
Qed.

End Facts.
(** Runs the [Route] in the goal and names its result. *)
Ltac run_Route Hroute r' out :=
  match goal with
  | |- context [StandardRouter.Route ?r ?entries ?pb ?w] =>
      destruct (StandardRouter.Route r entries pb w)
        as [?|[r' out]] eqn:Hroute; [by vm_compute in Hroute|]
  end.

Lemma handlers_called_in_registration_order_witness :
  ∃ r' out,
    StandardRouter.Route Fixtures.standard_router
      (map_to_list (StandardRouter.subscriptions Fixtures.standard_router))
      (Fixtures.publish "specific/topic" None) [] = inr (r', out) ∧
    calls_of "specific/topic" (calls (final out))
    = [Registered "specific/topic" (Fixtures.marking_message_handler "handler")].
Proof.
  destruct (@handlers_called_in_registration_order (list string)) as [Hstd _].
  run_Route Hroute r' out.
  pose proof (Hstd _ _ _ _ _ _ "specific/topic"
                [Fixtures.marking_message_handler "handler"]
                (reflexivity _) Hroute (reflexivity _)) as Hcalls.
  vm_compute in Hroute. injection Hroute as <- <-.
  do 2 eexists. split; [reflexivity|]. exact Hcalls.
Defined.

Lemma handlers_registered_twice_both_called_witness :
  ∃ r' out,
    StandardRouter.Route
      (StandardRouter.RegisterHandler
         (StandardRouter.RegisterHandler StandardRouter.NewStandardRouter
            "test/topic" (Fixtures.marking_message_handler "h1"))
         "test/topic" (Fixtures.marking_message_handler "h2"))
      [("test/topic", [Fixtures.marking_message_handler "h1";
                       Fixtures.marking_message_handler "h2"])]
      (Fixtures.publish "test/topic" None) [] = inr (r', out) ∧
    calls_of "test/topic" (calls (final out))
    = [Registered "test/topic" (Fixtures.marking_message_handler "h1");
       Registered "test/topic" (Fixtures.marking_message_handler "h2")] ∧
    world (final out) = ["h1"; "h2"].
Proof.
  destruct (@handlers_registered_twice_both_called (list string)) as [Hstd _].
  run_Route Hroute r' out.
  pose proof (Hstd StandardRouter.NewStandardRouter "test/topic"
                (Fixtures.marking_message_handler "h1")
                (Fixtures.marking_message_handler "h2") _ _ _ _ _
                (reflexivity _) Hroute) as Hcalls.
  vm_compute in Hroute. injection Hroute as <- <-.
  do 2 eexists. split; [reflexivity|]. split; [|reflexivity].
  apply Hcalls. reflexivity.
Defined.

Lemma unregistered_filter_is_never_called_witness :
  ∃ r' out,
    StandardRouter.Route
      (StandardRouter.UnregisterHandler Fixtures.standard_router
         "specific/topic")
      [] (Fixtures.publish "specific/topic" None) [] = inr (r', out) ∧
    calls_of "specific/topic" (calls (final out)) = [] ∧
    world (final out) = ["default"].
Proof.
  destruct (@unregistered_filter_is_never_called (list string)) as [Hstd _].
  run_Route Hroute r' out.
  destruct (Hstd Fixtures.standard_router "specific/topic" _ _ _ _ _
              (reflexivity _) Hroute) as (Hcalls & _).
  vm_compute in Hroute. injection Hroute as <- <-.
  do 2 eexists. split; [reflexivity|]. split; [exact Hcalls|reflexivity].
Defined.

Lemma cleared_default_handler_is_not_called_witness :
  ∃ r' out,
    StandardRouter.Route
      (StandardRouter.DefaultHandler Fixtures.standard_router None)
      [("specific/topic", [Fixtures.marking_message_handler "handler"])]
      (Fixtures.publish "unmatched/topic" None) ["before"] = inr (r', out) ∧
    calls (final out) = [] ∧ world (final out) = ["before"].
Proof.
  destruct (@cleared_default_handler_is_not_called (list string)) as [Hstd _].
  run_Route Hroute r' out.
  destruct (Hstd Fixtures.standard_router _ _ _ _ _ Hroute) as [_ Hquiet].
  vm_compute in Hroute. injection Hroute as <- <-.
  do 2 eexists. split; [reflexivity|]. apply Hquiet.
  intros route handlers Hin.
  apply list_elem_of_singleton in Hin. by simplify_eq.
Defined.

Lemma alias_cache_never_holds_empty_topic_witness :
  ∃ r' out,
    StandardRouter.Route Fixtures.alias_router
      (map_to_list (StandardRouter.subscriptions Fixtures.alias_router))
      (Fixtures.publish "x/y" (Some 1)) [] = inr (r', out) ∧
    StandardRouter.subscriptions r'
    = StandardRouter.subscriptions Fixtures.alias_router ∧
    ∀ alias t, StandardRouter.aliases r' !! alias = Some t -> t ≠ "".
Proof.
  destruct (@alias_cache_never_holds_empty_topic (list string)) as [Hstd _].
  run_Route Hroute r' out.
  destruct (Hstd Fixtures.alias_router _ _ _ _ _ Hroute)
    as (Hsubs & _ & _ & Hinv & _).
  - intros alias t Hlookup.
    change (StandardRouter.aliases Fixtures.alias_router)
      with (∅ : gmap Z string) in Hlookup.
    by rewrite lookup_empty in Hlookup.
  - do 2 eexists. split; [reflexivity|]. by split.
Defined.

Lemma dispatch_independent_of_iteration_order_witness :
  ∃ r1 out1 out2,
    StandardRouter.Route Fixtures.overlapping_router
      [("a/#", [Fixtures.marking_message_handler "a/#"]);
       ("a/b", [Fixtures.marking_message_handler "a/b"])]
      (Fixtures.publish "a/b" None) [] = inr (r1, out1) ∧
    StandardRouter.Route Fixtures.overlapping_router
      [("a/b", [Fixtures.marking_message_handler "a/b"]);
       ("a/#", [Fixtures.marking_message_handler "a/#"])]
      (Fixtures.publish "a/b" None) [] = inr (r1, out2) ∧
    world (final out1) = ["a/#"; "a/b"] ∧
    calls (final out1) ≡ₚ calls (final out2).
Proof.
  destruct (@dispatch_independent_of_iteration_order (list string))
    as [Hstd _].
  destruct (StandardRouter.Route Fixtures.overlapping_router
              [("a/#", [Fixtures.marking_message_handler "a/#"]);
               ("a/b", [Fixtures.marking_message_handler "a/b"])]
              (Fixtures.publish "a/b" None) [])
    as [fault|[r1 out1]] eqn:Hroute; [by vm_compute in Hroute|].
  destruct (Hstd _ _
              [("a/b", [Fixtures.marking_message_handler "a/b"]);
               ("a/#", [Fixtures.marking_message_handler "a/#"])]
              _ _ _ _ (Permutation_swap _ _ _) Hroute)
    as (out2 & Hroute2 & _ & Hperm).
  exists r1, out1, out2. split; [done|]. split; [exact Hroute2|].
  split; [|exact Hperm].
  vm_compute in Hroute. by injection Hroute as <- <-.
Defined.

Lemma single_handler_router_calls_its_handler_witness :
  ∃ r' out,
    StandardRouter.Route
      (StandardRouter.NewSingleHandlerRouter
         (Some (Fixtures.marking_message_handler "only")))
      [] (Fixtures.publish "any/topic" (Some 3)) [] = inr (r', out) ∧
    world (final out) = ["only"].
Proof.
  destruct (single_handler_router_calls_its_handler
              (Fixtures.marking_message_handler "only") []
              (Fixtures.publish "any/topic" (Some 3)) []
              {| packets.TopicAlias := Some 3 |})
    as (r' & out & Hroute & _ & Hworld).
  - unfold iteration_of. simpl. by rewrite map_to_list_empty.
  - reflexivity.
  - exists r', out. split; [exact Hroute|]. rewrite Hworld. reflexivity.
Defined.

Lemma unsplittable_shared_filter_makes_Route_panic_witness :
  StandardRouter.Route Fixtures.unsplittable_router
    [("$share", [Fixtures.marking_message_handler "handler"])]
    (Fixtures.publish "x/y" None) [] = inl SliceBoundsOutOfRange.
Proof.
  destruct (@unsplittable_shared_filter_makes_Route_panic (list string))
    as [Hstd _].
  apply (Hstd _ _ _ _ {| packets.TopicAlias := None |} "$share"
           [Fixtures.marking_message_handler "handler"]).
  - reflexivity.
  - reflexivity.
  - by left.
  - reflexivity.
  - reflexivity.
  - discriminate.
Defined.

Lemma dispatch_effect_is_its_calls_in_order_witness :
  ∃ r' out,
    ContextRouter.Route Fixtures.context_router
      (map_to_list (ContextRouter.subscriptions Fixtures.context_router))
      (Fixtures.publish "test/topic" None) [] = inr (r', out) ∧
    world (final out)
    = ["m1-before"; "m2-before"; "handler"; "m2-after"; "m1-after"].
Proof.
  destruct (@dispatch_effect_is_its_calls_in_order (list string))
    as [_ Hcontext].
  destruct (ContextRouter.Route _ _ _ _) as [fault|[r' out]] eqn:Hroute;
    [by vm_compute in Hroute|].
  pose proof (Hcontext _ _ _ _ _ _ _ Hroute) as Hworld.
  vm_compute in Hroute. injection Hroute as <- <-.
  do 2 eexists. split; [reflexivity|]. rewrite Hworld. reflexivity.
Defined.

End RouterMore.

(** ** Locking: where the lock protects *)

Module LockingMore.
Import Dispatch Locking LockingFacts.

(** A step can only shorten what a goroutine has left to do. *)
Lemma step_preserves (P : list Op -> Prop) c c' :
  (∀ op rest, P (op :: rest) -> P rest) ->
  step c c' -> Forall P c.2 -> Forall P c'.2.
Proof.
  intros Hsuffix [mu goroutines i op rest Hi Hop] Hall. simpl in *.
  apply Forall_insert; [done|].
  apply (Hsuffix op). by eapply (Forall_lookup_1 P goroutines i).
Qed.

Lemma steps_preserve (P : list Op -> Prop) c c' :
  (∀ op rest, P (op :: rest) -> P rest) ->
  rtc step c c' -> Forall P c.2 -> Forall P c'.2.
Proof.
  intros Hsuffix Hsteps. induction Hsteps as [c|c c1 c2 Hstep _ IH]; [done|].
  intros Hall. apply IH. by eapply step_preserves.
Qed.

(** Goroutines that never store cannot race. *)
Lemma no_store_no_race c c' :
  Forall (λ ops, ∀ l, Store l ∉ ops) c.2 ->
  rtc step c c' -> ¬ race c'.
Proof.
  intros Hall Hsteps.
  apply (steps_preserve (λ ops, ∀ l, Store l ∉ ops)) in Hsteps; [|
    by intros op rest Hnot l Hin; apply (Hnot l); right|done].
  intros (i & j & a & rest_i & b & rest_j & _ & Hi & Hj & Hconflict).
  pose proof (Forall_lookup_1 _ _ _ _ Hsteps Hi) as Ha.
  pose proof (Forall_lookup_1 _ _ _ _ Hsteps Hj) as Hb.
  destruct a as [| | | |la|la], b as [| | | |lb|lb]; simpl in Hconflict;
    try done.
  - apply (Hb lb). by left.
  - apply (Ha la). by left.
  - apply (Ha la). by left.
Qed.

(** A [Route] stores nothing unless the message carries both an alias and
    a topic name. *)
Lemma Route_ops_no_store pb l :
  (∀ props alias,
     packets.Properties_ pb = Some props ->
     packets.TopicAlias props = Some alias -> packets.Topic pb = "") ->
  Store l ∉ Route_ops pb.
Proof.
  intros Hplain. unfold Route_ops.
  destruct (packets.Properties_ pb) as [props|];
    [destruct (packets.TopicAlias props) as [alias|] eqn:Halias;
       [rewrite decide_False by (intros Hne; by apply Hne, (Hplain props alias))
       |]|];
    simpl; rewrite ?elem_of_cons, elem_of_nil;
    intros Hin; decompose [or] Hin; simplify_eq; done.
Qed.

(** X24.  Any number of concurrent dispatches never race with each other
    as long as none of the messages carries both an alias and a topic name:
    under the shared lock they only read. *)
Theorem plain_dispatches_never_race (pbs : list packets.Publish) c :
  (∀ pb props alias,
     pb ∈ pbs ->
     packets.Properties_ pb = Some props ->
     packets.TopicAlias props = Some alias -> packets.Topic pb = "") ->
  rtc step (unlocked, Route_ops <$> pbs) c ->
  ¬ race c.
Proof.
  intros Hplain. apply no_store_no_race. simpl.
  apply Forall_fmap, Forall_forall. intros pb Hpb l.
  apply Route_ops_no_store. intros props alias. by apply Hplain.
Qed.

(** X25.  A registration and a concurrent dispatch of a message without
    alias never race: the exclusive lock of [RegisterHandler] keeps the
    reader out while the subscriptions are written. *)
Theorem registration_never_races_with_plain_dispatch pb c :
  (∀ props, packets.Properties_ pb = Some props ->
            packets.TopicAlias props = None) ->
  rtc step (unlocked, [RegisterHandler_ops; Route_ops pb]) c ->
  ¬ race c.
Proof.
  intros Hplain Hsteps.
  assert (Hops : Route_ops pb = [RLock; RUnlock] ∨
                 Route_ops pb
                 = [RLock; Load Subscriptions; Load Middlewares;
                    Load DefaultHandlerField; RUnlock]).
  { unfold Route_ops. destruct (packets.Properties_ pb) as [props|];
      [|by left]. rewrite (Hplain props eq_refl). by right. }
  destruct Hops as [Hops|Hops]; rewrite Hops in Hsteps.
  - apply (closed_reachable
             (explore 6 [(unlocked, [RegisterHandler_ops; [RLock; RUnlock]])]))
      in Hsteps; [|by vm_compute|vm_compute; by left].
    vm_compute in Hsteps.
    intros (i & j & a & rest_i & b & rest_j & Hij & Hi & Hj & Hconflict).
    repeat (apply elem_of_cons in Hsteps as [->|Hsteps];
            [destruct i as [|[|i]], j as [|[|j]];
             simpl in *; simplify_eq; simpl in *; done|]).
    by inversion Hsteps.
  - apply (closed_reachable
             (explore 9
                [(unlocked,
                  [RegisterHandler_ops;
                   [RLock; Load Subscriptions; Load Middlewares;
                    Load DefaultHandlerField; RUnlock]])]))
      in Hsteps; [|by vm_compute|vm_compute; by left].
    vm_compute in Hsteps.
    intros (i & j & a & rest_i & b & rest_j & Hij & Hi & Hj & Hconflict).
    repeat (apply elem_of_cons in Hsteps as [->|Hsteps];
            [destruct i as [|[|i]], j as [|[|j]];
             simpl in *; simplify_eq; simpl in *; done|]).
    by inversion Hsteps.
Qed.

Lemma plain_dispatches_never_race_witness :
  ¬ race (unlocked,
          Route_ops <$> [Fixtures.publish "x/y" None;
                         Fixtures.publish "" (Some 1);
                         Fixtures.publish_without_properties "x/z"]).
Proof.
  apply (plain_dispatches_never_race
           [Fixtures.publish "x/y" None; Fixtures.publish "" (Some 1);
            Fixtures.publish_without_properties "x/z"]).
  - intros pb props alias Hpb Hprops Halias.
    repeat (apply elem_of_cons in Hpb as [->|Hpb];
            [simpl in *; by simplify_eq|]).
    by inversion Hpb.
  - apply rtc_refl.
Defined.

Lemma registration_never_races_with_plain_dispatch_witness :
  ¬ race ({| readers := 0; writer := true |},
          [[Load Subscriptions; Store Subscriptions; Unlock];
           Route_ops (Fixtures.publish "x/y" None)]).
Proof.
  apply (registration_never_races_with_plain_dispatch
           (Fixtures.publish "x/y" None)).
  - intros props [= <-]. reflexivity.
  - eapply rtc_l; [|apply rtc_refl].
    exact (step_goroutine unlocked
             [RegisterHandler_ops; Route_ops (Fixtures.publish "x/y" None)]
             0%nat Lock [Load Subscriptions; Store Subscriptions; Unlock]
             eq_refl eq_refl).
Defined.

(** X26.  Two concurrent [RegisterHandler] calls never race: whatever the
    interleaving, the two goroutines are never both about to access the
    subscriptions. *)
Theorem concurrent_registrations_never_race c :
  rtc step (unlocked, [RegisterHandler_ops; RegisterHandler_ops]) c ->
  ¬ race c.
Proof. apply registrations_never_race. Qed.

Lemma concurrent_registrations_never_race_witness :
  ¬ race ({| readers := 0; writer := true |},
          [RegisterHandler_ops;
           [Load Subscriptions; Store Subscriptions; Unlock]]).
Proof.
  apply concurrent_registrations_never_race.
  eapply rtc_l; [|apply rtc_refl].
  exact (step_goroutine unlocked [RegisterHandler_ops; RegisterHandler_ops]
           1%nat Lock [Load Subscriptions; Store Subscriptions; Unlock]
           eq_refl eq_refl).
Defined.

End LockingMore.

(** ** The topic matcher: what follows a ["#"] *)

Module MatcherHash.
Import Go Matcher MatcherFacts MatcherMore.

Lemma matchDeep_after_hash route : ∀ rest topic,
  matchDeep (route ++ "#" :: rest) topic = matchDeep (route ++ ["#"]) topic.
Proof.
  induction route as [|route0 route' IH]; intros rest topic; simpl.
  - by destruct topic.
  - destruct topic as [|topic0 topic']; [done|].
    destruct (String.eqb route0 "#"); [done|].
    by destruct (String.eqb route0 "+" || String.eqb route0 topic0).
Qed.

(** X27.  The matcher does not check that ["#"] is the last level of a
    filter; it stops comparing there.  A filter [f/#/rest] therefore
    matches exactly the topics that [f/#] matches. *)
Theorem levels_after_hash_are_ignored f rest topic :
  HasPrefix (f +:+ "/#") "$share" = false ->
  HasPrefix (f +:+ "/#/" +:+ rest) "$share" = false ->
  match_ (f +:+ "/#/" +:+ rest) topic = match_ (f +:+ "/#") topic.
Proof.
  intros Hshare Hshare'.
  rewrite (match_levels _ _ Hshare), (match_levels _ _ Hshare').
  change (f +:+ "/#/" +:+ rest)
    with (f +:+ String "/" ("#" +:+ String "/" rest)).
  rewrite !levels_app, Split_app.
  change (Split "#" "/") with ["#"]. simpl.
  by rewrite matchDeep_after_hash.
Qed.

Lemma levels_after_hash_are_ignored_witness :
  match_ "a/#/b" "a/x/y" = match_ "a/#" "a/x/y" ∧
  match_ "a/#/b" "a/x/y" = inr true.
Proof.
  split; [|reflexivity].
  apply (levels_after_hash_are_ignored "a" "b" "a/x/y"); reflexivity.
Defined.

End MatcherHash.
